(** * relay/fakes.go: the call-graph recorder used to test relay statistics

    A shallow embedding of [MockCallStats], [FluentMockCallStats] and
    [MockStats], and of the comparison run by [MockStats.AssertEqual].

    - A Go [int] is a [Z] wrapped to 64 bits by [int_wrap].
    - A Go [string] is a [string]; [map[string][]*MockCallStats] is a
      [gmap string (list MockCallStats)].
    - A [*MockCallStats] is a [Handle]: the edge key and the position of the
      record in that edge's slice.  [Add] only ever appends and nothing is
      deleted, so a handle denotes the same cell for the whole life of the
      recorder; every method called through it updates the record held by the
      map, which is the aliasing the Go pointers give.
    - [sync.WaitGroup] is its counter; [testing.TB] is a failure flag and the
      reports written so far. *)

From Stdlib Require Import ZArith Lia Ascii.
From stdpp Require Import base tactics option list gmap gmultiset strings.

(** ** Go integers *)

Definition int_wrap (z : Z) : Z := ((z + 2 ^ 63) mod 2 ^ 64 - 2 ^ 63)%Z.

(** [x++] on an [int]. *)
Definition int_incr (z : Z) : Z := int_wrap (z + 1).

Definition int_max : Z := (2 ^ 63 - 1)%Z.

(** ** Results of code that can panic *)

Inductive Result (A : Type) : Type :=
| Ok (a : A)
| Panic.
Arguments Ok {A} a.
Arguments Panic {A}.

Definition bindR {A B : Type} (r : Result A) (k : A → Result B) : Result B :=
  match r with
  | Ok a => k a
  | Panic => Panic
  end.

Notation "x ←! r ; k" := (bindR r (λ x, k))
  (at level 20, r at level 100, k at level 200, right associativity,
   format "x  ←!  r ;  '/' k").

(** How a piece of test code ends: it returns, [t.FailNow] stops the
    goroutine, or an index is out of range. *)
Inductive Flow (A : Type) : Type :=
| Return (a : A)
| Goexit
| IndexPanic.
Arguments Return {A} a.
Arguments Goexit {A}.
Arguments IndexPanic {A}.

(** ** sync.WaitGroup

    The standard library's contract: [Add] adds [delta] to the counter and
    panics when the counter would become negative, [Done] is [Add(-1)], and
    [Wait] returns when the counter is zero. *)

Definition wg_Add (delta : Z) (counter : Z) : Result Z :=
  if decide (counter + delta < 0)%Z then Panic else Ok (counter + delta)%Z.

Definition wg_Done (counter : Z) : Result Z := wg_Add (-1) counter.

(** Whether [Wait] returns in a state where nothing else runs. *)
Definition wg_Wait (counter : Z) : bool := bool_decide (counter = 0%Z).

(** ** CallFrame

    Modelled from the spec: the [CallFrame] interface is declared outside
    fakes.go; its three accessors give the caller, the callee service and the
    procedure of a call. *)
Record CallFrame : Type := mkCallFrame {
  Caller : string;
  Service : string;
  Method : string
}.

(** [fmt.Sprintf("%s->%s::%s", caller, callee, procedure)]. *)
Definition tripleToKey (caller callee procedure : string) : string :=
  caller +:+ "->" +:+ callee +:+ "::" +:+ procedure.

(** A pointer to a record of a recorder. *)
Definition Handle : Type := string * nat.

Section recorder.
(** [Peer] is declared outside fakes.go; the comparison only needs equality
    of peers. *)
Context {Peer : Type} `{EqDecision Peer}.

(** ** MockCallStats

    The [wg] field is left out: [Add] is the only place that builds a
    record, and it sets [wg] to the [WaitGroup] of the recorder. *)
Record MockCallStats : Type := mkMockCallStats {
  succeeded : Z;
  failedMsgs : list string;
  ended : Z;
  peer : option Peer;
  verifyPeer : bool
}.

#[export] Instance MockCallStats_eq_dec : EqDecision MockCallStats.
Proof. solve_decision. Defined.

(** [&MockCallStats{wg: &m.wg}]. *)
Definition zeroCallStats : MockCallStats :=
  {| succeeded := 0; failedMsgs := []; ended := 0; peer := None;
     verifyPeer := false |}.

Definition Succeeded (m : MockCallStats) : MockCallStats :=
  {| succeeded := int_incr (succeeded m); failedMsgs := failedMsgs m;
     ended := ended m; peer := peer m; verifyPeer := verifyPeer m |}.

Definition Failed (reason : string) (m : MockCallStats) : MockCallStats :=
  {| succeeded := succeeded m; failedMsgs := failedMsgs m ++ [reason];
     ended := ended m; peer := peer m; verifyPeer := verifyPeer m |}.

Definition SetPeer (p : Peer) (m : MockCallStats) : MockCallStats :=
  {| succeeded := succeeded m; failedMsgs := failedMsgs m;
     ended := ended m; peer := Some p; verifyPeer := true |}.

(** [m.ended++], the first statement of [End]. *)
Definition End_incr (m : MockCallStats) : MockCallStats :=
  {| succeeded := succeeded m; failedMsgs := failedMsgs m;
     ended := int_incr (ended m); peer := peer m;
     verifyPeer := verifyPeer m |}.

(** [End], on the record and the counter its [wg] points to.  A panic of
    [m.wg.Done()] ends the program: the result then has no record. *)
Definition End (m : MockCallStats) (counter : Z) : Result (MockCallStats * Z) :=
  let m' := End_incr m in
  c ←! wg_Done counter;
  Ok (m', c).

(** ** MockStats *)
Record MockStats : Type := mkMockStats {
  wg : Z;
  stats : gmap string (list MockCallStats)
}.

Definition NewMockStats : MockStats := {| wg := 0; stats := ∅ |}.

(** The record a handle points to. *)
Definition deref (h : Handle) (m : MockStats) : option MockCallStats :=
  stats m !! h.1 ≫= λ calls, calls !! h.2.

(** Writing through a handle. *)
Definition store (h : Handle) (cs : MockCallStats) (m : MockStats) : MockStats :=
  {| wg := wg m; stats := alter (λ calls, <[h.2 := cs]> calls) h.1 (stats m) |}.

(** A method of [MockCallStats] that touches the record only, called
    through a handle.  A handle that [Add] did not return denotes no record;
    the call is then a nil dereference. *)
Definition call (f : MockCallStats → MockCallStats) (h : Handle)
    (m : MockStats) : Result MockStats :=
  match deref h m with
  | Some cs => Ok (store h (f cs) m)
  | None => Panic
  end.

(** [End] called through a handle. *)
Definition call_End (h : Handle) (m : MockStats) : Result MockStats :=
  match deref h m with
  | Some cs =>
      r ←! End cs (wg m);
      Ok {| wg := r.2; stats := stats (store h r.1 m) |}
  | None => Panic
  end.

Definition Add (caller callee procedure : string) (m : MockStats)
    : Result (MockStats * Handle) :=
  c ←! wg_Add 1 (wg m);
  let cs := zeroCallStats in
  let key := tripleToKey caller callee procedure in
  let calls := stats m !!! key in
  Ok ({| wg := c; stats := <[key := calls ++ [cs]]> (stats m) |},
      (key, length calls)).

Definition Begin (f : CallFrame) (m : MockStats) : Result (MockStats * Handle) :=
  Add (Caller f) (Service f) (Method f) m.

(** ** FluentMockCallStats: each method forwards and returns the handle. *)
Definition Fluent_Succeeded (h : Handle) (m : MockStats)
    : Result (MockStats * Handle) :=
  m' ←! call Succeeded h m; Ok (m', h).

Definition Fluent_Failed (reason : string) (h : Handle) (m : MockStats)
    : Result (MockStats * Handle) :=
  m' ←! call (Failed reason) h m; Ok (m', h).

Definition Fluent_SetPeer (p : Peer) (h : Handle) (m : MockStats)
    : Result (MockStats * Handle) :=
  m' ←! call (SetPeer p) h m; Ok (m', h).

(** ** testing.TB and testify *)

Inductive Report : Type :=
| UnexpectedEdges
| UnexpectedNumberOfCalls (edge : string)
| ExpectedEndNotOne
| ExpectationWithoutOutcome
| UnexpectedSuccesses
| UnexpectedReasons
| UnexpectedEnds
| UnexpectedPeer
| RelayedStats (expected actual : MockCallStats).

#[export] Instance Report_eq_dec : EqDecision Report.
Proof. solve_decision. Defined.

(** The text of each report; [RelayedStats] is the [t.Logf] dump, whose
    text goes on with both records printed by [%+v]. *)
Definition message (r : Report) : string :=
  match r with
  | UnexpectedEdges => "Found calls along unexpected edges."
  | UnexpectedNumberOfCalls edge =>
      "Unexpected number of calls along " +:+ edge +:+ " edge."
  | ExpectedEndNotOne => "Expected call must assert exactly one call to End."
  | ExpectationWithoutOutcome =>
      "Expectation must indicate whether RPC should succeed or fail."
  | UnexpectedSuccesses => "Unexpected number of successes."
  | UnexpectedReasons => "Unexpected reasons for RPC failure."
  | UnexpectedEnds => "Unexpected number of calls to End."
  | UnexpectedPeer => "Unexpected peer used for the call"
  | RelayedStats _ _ => "Expected relayed stats were:"
  end.

Record TB : Type := mkTB {
  tb_failed : bool;
  tb_output : list Report
}.

Definition Test (A : Type) : Type := TB → Flow A * TB.

Definition ret {A : Type} (a : A) : Test A := λ t, (Return a, t).

Definition bindT {A B : Type} (c : Test A) (k : A → Test B) : Test B :=
  λ t, match c t with
       | (Return a, t') => k a t'
       | (Goexit, t') => (Goexit, t')
       | (IndexPanic, t') => (IndexPanic, t')
       end.

Definition t_Errorf (r : Report) : Test unit :=
  λ t, (Return (), {| tb_failed := true; tb_output := tb_output t ++ [r] |}).

Definition t_Logf (r : Report) : Test unit :=
  λ t, (Return (), {| tb_failed := tb_failed t; tb_output := tb_output t ++ [r] |}).

Definition t_FailNow {A : Type} : Test A :=
  λ t, (Goexit, {| tb_failed := true; tb_output := tb_output t |}).

Definition t_Failed : Test bool := λ t, (Return (tb_failed t), t).

Definition assert_Equal {A : Type} `{EqDecision A} (expected actual : A)
    (msg : Report) : Test bool :=
  if decide (expected = actual) then ret true
  else bindT (t_Errorf msg) (λ _, ret false).

Definition assert_False (value : bool) (msg : Report) : Test bool :=
  if value then bindT (t_Errorf msg) (λ _, ret false) else ret true.

Definition require_Equal {A : Type} `{EqDecision A} (expected actual : A)
    (msg : Report) : Test unit :=
  bindT (assert_Equal expected actual msg)
    (λ ok, if ok then ret () else t_FailNow).

Definition require_False (value : bool) (msg : Report) : Test unit :=
  bindT (assert_False value msg)
    (λ ok, if ok then ret () else t_FailNow).

(** [for _, x := range l { f x }]. *)
Fixpoint for_each {A : Type} (f : A → Test unit) (l : list A) : Test unit :=
  match l with
  | [] => ret ()
  | x :: l' => bindT (f x) (λ _, for_each f l')
  end.

(** ** The comparison *)

Definition assertCallEqual (expected actual : MockCallStats) : Test unit :=
  bindT (require_Equal 1%Z (ended expected) ExpectedEndNotOne) (λ _,
  bindT (require_False
           (bool_decide (succeeded expected ≤ 0)%Z
            && bool_decide (length (failedMsgs expected) = 0))
           ExpectationWithoutOutcome) (λ _,
  bindT (assert_Equal (succeeded expected) (succeeded actual)
           UnexpectedSuccesses) (λ _,
  bindT (assert_Equal (failedMsgs expected) (failedMsgs actual)
           UnexpectedReasons) (λ _,
  bindT (assert_Equal (ended expected) (ended actual) UnexpectedEnds) (λ _,
  bindT (if verifyPeer expected
         then bindT (assert_Equal (peer expected) (peer actual) UnexpectedPeer)
                (λ _, ret ())
         else ret ()) (λ _,
  bindT t_Failed (λ failed,
  if failed then t_Logf (RelayedStats expected actual) else ret ()))))))).

(** [expectedCalls[i]] and [actualCalls[i]] for the [i] of the loop. *)
Definition assertCallAt (expectedCalls actualCalls : list MockCallStats)
    (i : nat) : Test unit :=
  match expectedCalls !! i, actualCalls !! i with
  | Some expected, Some actual => assertCallEqual expected actual
  | _, _ => λ t, (IndexPanic, t)
  end.

Definition assertEdgeEqual (m expected : MockStats) (edge : string) : Test unit :=
  let expectedCalls := stats expected !!! edge in
  let actualCalls := stats m !!! edge in
  bindT (assert_Equal (length expectedCalls) (length actualCalls)
           (UnexpectedNumberOfCalls edge)) (λ ok,
  if ok
  then for_each (assertCallAt expectedCalls actualCalls)
         (seq 0 (length expectedCalls))
  else ret ()).

(** The steps of [AssertEqual] after [m.wg.Wait()] has returned.  Go leaves
    the order of [range expected.stats] open: [order] lists the keys of
    [expected.stats] in the order of this run. *)
Definition compareStats (order : list string) (m expected : MockStats)
    : Test unit :=
  bindT (assert_Equal (size (stats expected)) (size (stats m))
           UnexpectedEdges) (λ ok,
  if ok then for_each (assertEdgeEqual m expected) order else ret ()).

(** An order in which [range] can visit the keys of a map. *)
Definition range_order (M : gmap string (list MockCallStats))
    (order : list string) : Prop :=
  order ≡ₚ (map_to_list M).*1.

(** [AssertEqual] with nothing else running: [None] when [m.wg.Wait()]
    never returns.  Only the counter of [m] is waited for, not that of
    [expected].  The two recorders are two objects: called with the recorder
    itself as [expected], the Go code locks [m.mu] twice and never
    returns. *)
Definition AssertEqual (order : list string) (m expected : MockStats)
    (t : TB) : option (Flow unit * TB) :=
  if wg_Wait (wg m) then Some (compareStats order m expected t) else None.

(** ** Test scripts: calls made one after the other *)

Inductive Op : Type :=
| OpAdd (caller callee procedure : string)
| OpBegin (f : CallFrame)
| OpSucceeded (h : Handle)
| OpFailed (h : Handle) (reason : string)
| OpSetPeer (h : Handle) (p : Peer)
| OpEnd (h : Handle).

Definition exec (o : Op) (m : MockStats) : Result MockStats :=
  match o with
  | OpAdd caller callee procedure =>
      r ←! Add caller callee procedure m; Ok r.1
  | OpBegin f => r ←! Begin f m; Ok r.1
  | OpSucceeded h => call Succeeded h m
  | OpFailed h reason => call (Failed reason) h m
  | OpSetPeer h p => call (SetPeer p) h m
  | OpEnd h => call_End h m
  end.

Fixpoint run (ops : list Op) (m : MockStats) : Result MockStats :=
  match ops with
  | [] => Ok m
  | o :: ops' => m' ←! exec o m; run ops' m'
  end.

(** The recorders a test can build. *)
Definition reachable (m : MockStats) : Prop :=
  ∃ ops, run ops NewMockStats = Ok m.



Definition is_SetPeer_on (h : Handle) (o : Op) : bool :=
  match o with OpSetPeer h' _ => bool_decide (h' = h) | _ => false end.

Definition count_ops (p : Op → bool) (ops : list Op) : Z :=
  Z.of_nat (length (filter (λ o, p o = true) ops)).


(** A recorder with one edge and one record on it. *)
Definition one_call (edge : string) (cs : MockCallStats) (pending : Z)
    : MockStats :=
  {| wg := pending; stats := {[edge := [cs]]} |}.

(** ** Calls that run at the same time

    A call of [Add] is two steps, [m.wg.Add(1)] and then the append under
    [m.mu]; a call of [End] is two steps, [m.ended++] and then
    [m.wg.Done()]; [AssertEqual] is [m.wg.Wait()] and then the comparison
    under both locks.  The other methods are one step.  A run is any
    sequence of steps in which the second step of a call comes after its
    first. *)

(** Line 132 of [Add]. *)
Definition Add_wg (m : MockStats) : Result MockStats :=
  c ←! wg_Add 1 (wg m); Ok {| wg := c; stats := stats m |}.

(** Lines 133 to 138 of [Add]. *)
Definition Add_store (caller callee procedure : string) (m : MockStats)
    : MockStats * Handle :=
  let cs := zeroCallStats in
  let key := tripleToKey caller callee procedure in
  let calls := stats m !!! key in
  ({| wg := wg m; stats := <[key := calls ++ [cs]]> (stats m) |},
   (key, length calls)).

(** Line 85 of [End]. *)
Definition End_done (m : MockStats) : Result MockStats :=
  c ←! wg_Done (wg m); Ok {| wg := c; stats := stats m |}.

Inductive Step : Type :=
| StepAddWg (caller callee procedure : string)
| StepAddStore (caller callee procedure : string)
| StepSucceeded (h : Handle)
| StepFailed (h : Handle) (reason : string)
| StepSetPeer (h : Handle) (p : Peer)
| StepEndIncr (h : Handle)
| StepEndDone (h : Handle)
| StepWait
| StepCompare (order : list string) (expected : MockStats) (t : TB).

Record World : Type := mkWorld {
  (** the recorder [AssertEqual] is called on *)
  rec : MockStats;
  (** the calls of [Add] that are between their two steps *)
  adding : gmultiset (string * string * string);
  (** the calls of [End] that are between their two steps *)
  ending : gmultiset Handle;
  (** the handles [Add] has returned, oldest first *)
  returned : list Handle;
  (** [AssertEqual] is between [m.wg.Wait()] and the comparison *)
  waited : bool;
  (** what the comparisons made so far have given, oldest first *)
  verdicts : list (Flow unit * TB)
}.

Definition with_rec (m : MockStats) (w : World) : World :=
  {| rec := m; adding := adding w; ending := ending w;
     returned := returned w; waited := waited w; verdicts := verdicts w |}.

Definition newWorld : World :=
  {| rec := NewMockStats; adding := ∅; ending := ∅; returned := [];
     waited := false; verdicts := [] |}.

(** One step; [None] when the step cannot be the next one. *)
Definition step (s : Step) (w : World) : option (Result World) :=
  match s with
  | StepAddWg caller callee procedure =>
      Some (m ←! Add_wg (rec w);
            Ok {| rec := m;
                  adding := {[+ (caller, callee, procedure) +]} ⊎ adding w;
                  ending := ending w; returned := returned w;
                  waited := waited w; verdicts := verdicts w |})
  | StepAddStore caller callee procedure =>
      if decide ((caller, callee, procedure) ∈ adding w)
      then
        let r := Add_store caller callee procedure (rec w) in
        Some (Ok {| rec := r.1;
                    adding := adding w ∖ {[+ (caller, callee, procedure) +]};
                    ending := ending w; returned := returned w ++ [r.2];
                    waited := waited w; verdicts := verdicts w |})
      else None
  | StepSucceeded h =>
      Some (m ←! call Succeeded h (rec w); Ok (with_rec m w))
  | StepFailed h reason =>
      Some (m ←! call (Failed reason) h (rec w); Ok (with_rec m w))
  | StepSetPeer h p =>
      Some (m ←! call (SetPeer p) h (rec w); Ok (with_rec m w))
  | StepEndIncr h =>
      Some (m ←! call End_incr h (rec w);
            Ok {| rec := m; adding := adding w;
                  ending := {[+ h +]} ⊎ ending w; returned := returned w;
                  waited := waited w; verdicts := verdicts w |})
  | StepEndDone h =>
      if decide (h ∈ ending w)
      then Some (m ←! End_done (rec w);
                 Ok {| rec := m; adding := adding w;
                       ending := ending w ∖ {[+ h +]};
                       returned := returned w;
                       waited := waited w; verdicts := verdicts w |})
      else None
  | StepWait =>
      if wg_Wait (wg (rec w))
      then Some (Ok {| rec := rec w; adding := adding w; ending := ending w;
                       returned := returned w; waited := true;
                       verdicts := verdicts w |})
      else None
  | StepCompare order expected t =>
      if waited w
      then Some (Ok {| rec := rec w; adding := adding w; ending := ending w;
                       returned := returned w; waited := false;
                       verdicts := verdicts w
                                   ++ [compareStats order (rec w) expected t] |})
      else None
  end.

Fixpoint steps (tr : list Step) (w : World) : option (Result World) :=
  match tr with
  | [] => Some (Ok w)
  | s :: tr' =>
      match step s w with
      | Some (Ok w') => steps tr' w'
      | Some Panic => Some Panic
      | None => None
      end
  end.

(** The handles on which a run has started a call of [End], and how often
    it has run each step of [Add] and of [End]. *)
Definition ended_handle (s : Step) : option Handle :=
  match s with StepEndIncr h => Some h | _ => None end.

Definition ended_handles (tr : list Step) : list Handle :=
  omap ended_handle tr.

Definition is_AddWg (s : Step) : bool :=
  match s with StepAddWg _ _ _ => true | _ => false end.

Definition is_EndDone (s : Step) : bool :=
  match s with StepEndDone _ => true | _ => false end.

Definition count_steps (p : Step → bool) (tr : list Step) : Z :=
  Z.of_nat (length (filter (λ s, p s = true) tr)).

(** What holds of the world after every run [tr] that has not panicked:
    the counter is the number of calls of [Add] that have passed their
    first step minus the number of calls of [End] that have passed their
    last one; the handles returned are the records of the recorder, each
    once; a call of [End] is made through a returned handle; a record on
    which [End] was never called has [ended] zero, and [ended] is one when
    it was called once; and when [AssertEqual] is past [m.wg.Wait()], the
    counter was zero at the step at which [Wait] returned. *)
Definition world_inv (tr : list Step) (w : World) : Prop :=
  wg (rec w) = (Z.of_nat (size (adding w)) + Z.of_nat (length (returned w))
                + Z.of_nat (size (ending w))
                - Z.of_nat (length (ended_handles tr)))%Z
  ∧ count_steps is_AddWg tr
    = (Z.of_nat (size (adding w)) + Z.of_nat (length (returned w)))%Z
  ∧ (count_steps is_EndDone tr + Z.of_nat (size (ending w)))%Z
    = Z.of_nat (length (ended_handles tr))
  ∧ (∀ h, h ∈ returned w ↔ is_Some (deref h (rec w)))
  ∧ NoDup (returned w)
  ∧ (∀ h, h ∈ ended_handles tr → h ∈ returned w)
  ∧ (∀ h cs, deref h (rec w) = Some cs → h ∉ ended_handles tr →
             ended cs = 0%Z)
  ∧ (NoDup (ended_handles tr) →
     ∀ h cs, deref h (rec w) = Some cs → h ∈ ended_handles tr →
             ended cs = 1%Z)
  ∧ (waited w = true →
     ∃ tr0 tr1 w0, tr = tr0 ++ StepWait :: tr1
                   ∧ steps tr0 newWorld = Some (Ok w0)
                   ∧ wg (rec w0) = 0%Z).

(** ** Vocabulary of the properties *)

(** An expected record that [assertCallEqual] refuses to compare. *)
Definition misconfigured (expected : MockCallStats) : Prop :=
  ended expected ≠ 1%Z
  ∨ ((succeeded expected ≤ 0)%Z ∧ failedMsgs expected = []).

Definition is_harness_report (r : Report) : Prop :=
  r = ExpectedEndNotOne ∨ r = ExpectationWithoutOutcome.

(** The reports of the four comparisons of two records, in their order. *)
Definition mismatches (expected actual : MockCallStats) : list Report :=
  (if decide (succeeded expected = succeeded actual)
   then [] else [UnexpectedSuccesses])
  ++ (if decide (failedMsgs expected = failedMsgs actual)
      then [] else [UnexpectedReasons])
  ++ (if decide (ended expected = ended actual)
      then [] else [UnexpectedEnds])
  ++ (if verifyPeer expected
      then if decide (peer expected = peer actual)
           then [] else [UnexpectedPeer]
      else []).

Definition call_matches (expected actual : MockCallStats) : Prop :=
  ¬ misconfigured expected
  ∧ succeeded expected = succeeded actual
  ∧ failedMsgs expected = failedMsgs actual
  ∧ ended expected = ended actual
  ∧ (verifyPeer expected = true → peer expected = peer actual).

(** What every piece of the comparison does to [t]: it appends reports
    that satisfy [Q]; [t] has failed afterwards exactly when it had failed
    before or a report was appended; when the piece stops the goroutine its
    last report is one of the two about the expectation; and no index is
    out of range. *)
Definition appends {A : Type} (Q : Report → Prop) (c : Test A) : Prop :=
  ∀ t, ∃ new,
    tb_output (c t).2 = tb_output t ++ new
    ∧ Forall Q new
    ∧ tb_failed (c t).2 = tb_failed t || bool_decide (new ≠ [])
    ∧ match (c t).1 with
      | Return _ => True
      | Goexit => ∃ pre r, new = pre ++ [r] ∧ is_harness_report r
      | IndexPanic => False
      end.

(** A piece of the comparison that leaves a [t] that has not failed
    untouched when [P] holds, and fails it otherwise. *)
Definition passes_iff (P : Prop) (c : Test unit) : Prop :=
  ∀ t, tb_failed t = false →
    (P → c t = (Return (), t)) ∧ (tb_failed (c t).2 = false → P).

(** Every edge of a recorder has a record. *)
Definition edges_nonempty (m : MockStats) : Prop :=
  ∀ edge calls, stats m !! edge = Some calls → calls ≠ [].

(** ** Vocabulary of the further properties *)

(** The record an operation of a script is called on. *)
Definition target (o : Op) : option Handle :=
  match o with
  | OpAdd _ _ _ | OpBegin _ => None
  | OpSucceeded h | OpFailed h _ | OpSetPeer h _ | OpEnd h => Some h
  end.

(** What an operation of a script does to the record behind [h]. *)
Definition on_record (h : Handle) (cs : MockCallStats) (o : Op)
    : MockCallStats :=
  match o with
  | OpSucceeded h' => if decide (h' = h) then Succeeded cs else cs
  | OpFailed h' reason => if decide (h' = h) then Failed reason cs else cs
  | OpSetPeer h' p => if decide (h' = h) then SetPeer p cs else cs
  | OpEnd h' => if decide (h' = h) then End_incr cs else cs
  | OpAdd _ _ _ | OpBegin _ => cs
  end.

(** The reason, and the peer, that an operation passes to the record behind
    [h]. *)
Definition reason_on (h : Handle) (o : Op) : option string :=
  match o with
  | OpFailed h' reason => if decide (h' = h) then Some reason else None
  | _ => None
  end.

Definition peer_on (h : Handle) (o : Op) : option Peer :=
  match o with
  | OpSetPeer h' p => if decide (h' = h) then Some p else None
  | _ => None
  end.

Definition is_Succeeded_on (h : Handle) (o : Op) : bool :=
  match o with OpSucceeded h' => bool_decide (h' = h) | _ => false end.

Definition is_End_on (h : Handle) (o : Op) : bool :=
  match o with OpEnd h' => bool_decide (h' = h) | _ => false end.

(** The calls of [Add] and [Begin] whose three strings give the key [edge]. *)
Definition is_new_call_on (edge : string) (o : Op) : bool :=
  match o with
  | OpAdd caller callee procedure =>
      bool_decide (tripleToKey caller callee procedure = edge)
  | OpBegin f =>
      bool_decide (tripleToKey (Caller f) (Service f) (Method f) = edge)
  | _ => false
  end.

(** A declaration made through [FluentMockCallStats], and a chain of them:
    each method is called on what the one before returned. *)
Inductive Decl : Type :=
| DeclSucceeded
| DeclFailed (reason : string)
| DeclSetPeer (p : Peer).

Definition declare (cs : MockCallStats) (d : Decl) : MockCallStats :=
  match d with
  | DeclSucceeded => Succeeded cs
  | DeclFailed reason => Failed reason cs
  | DeclSetPeer p => SetPeer p cs
  end.

Definition Fluent (d : Decl) (h : Handle) (m : MockStats)
    : Result (MockStats * Handle) :=
  match d with
  | DeclSucceeded => Fluent_Succeeded h m
  | DeclFailed reason => Fluent_Failed reason h m
  | DeclSetPeer p => Fluent_SetPeer p h m
  end.

Fixpoint fluent_chain (ds : list Decl) (h : Handle) (m : MockStats)
    : Result (MockStats * Handle) :=
  match ds with
  | [] => Ok (m, h)
  | d :: ds' => r ←! Fluent d h m; fluent_chain ds' r.2 r.1
  end.

(** The edges of [expected] on which the two recorders hold as many records,
    and the pairs [AssertEqual] compares on them. *)
Definition compared_pair (m expected : MockStats) (edge : string) (i : nat)
    (cs cs' : MockCallStats) : Prop :=
  is_Some (stats expected !! edge)
  ∧ length (stats expected !!! edge) = length (stats m !!! edge)
  ∧ (stats expected !!! edge) !! i = Some cs
  ∧ (stats m !!! edge) !! i = Some cs'.

End recorder.

Arguments MockCallStats Peer : clear implicits.
Arguments MockStats Peer : clear implicits.
Arguments Report Peer : clear implicits.
Arguments TB Peer : clear implicits.
Arguments Test Peer A : clear implicits.
Arguments Op Peer : clear implicits.
Arguments Step Peer : clear implicits.
Arguments World Peer : clear implicits.
Arguments Decl Peer : clear implicits.

(** Whether the character [a] occurs in [s]. *)
Fixpoint has_char (a : ascii) (s : string) : bool :=
  match s with
  | EmptyString => false
  | String b s' => bool_decide (a = b) || has_char a s'
  end.

(** * Properties *)

Section recorder_facts.
Context {Peer : Type} `{EqDecision Peer}.
Implicit Types (m expected : MockStats Peer) (cs : MockCallStats Peer).
Implicit Types (h : Handle) (t : TB Peer).

(** ** Integers and the counter *)

Lemma int_incr_in_range (z : Z) :
  (- 2 ^ 63 ≤ z < int_max)%Z → int_incr z = (z + 1)%Z.
Proof.
  unfold int_incr, int_wrap, int_max. intros Hz.
  rewrite Z.mod_small; lia.
Qed.

Lemma wg_Add_one (c : Z) : (0 ≤ c)%Z → wg_Add 1 c = Ok (c + 1)%Z.
Proof. intros Hc. unfold wg_Add. case_decide; [lia | done]. Qed.

Lemma wg_Done_pos (c : Z) : (0 < c)%Z → wg_Done c = Ok (c - 1)%Z.
Proof.
  intros Hc. unfold wg_Done, wg_Add. case_decide; [lia | f_equal].
Qed.


Lemma wg_Done_Ok (c c' : Z) :
  wg_Done c = Ok c' → c' = (c - 1)%Z ∧ (0 ≤ c')%Z.
Proof.
  unfold wg_Done, wg_Add. case_decide; [done |].
  intros [= <-]. lia.
Qed.

Lemma wg_Add_Ok (c c' : Z) : wg_Add 1 c = Ok c' → c' = (c + 1)%Z.
Proof. unfold wg_Add. case_decide; [done |]. by intros [= <-]. Qed.

(** ** Handles *)


Lemma lookup_total_stats_Some m edge calls :
  stats m !! edge = Some calls → stats m !!! edge = calls.
Proof. intros Hk. by rewrite lookup_total_alt, Hk. Qed.

Lemma lookup_total_stats_None m edge :
  stats m !! edge = None → stats m !!! edge = [].
Proof. intros Hk. by rewrite lookup_total_alt, Hk. Qed.

Lemma deref_total h m : deref h m = (stats m !!! h.1) !! h.2.
Proof.
  unfold deref. rewrite lookup_total_alt.
  by destruct (stats m !! h.1).
Qed.

Lemma stats_store h cs m edge :
  stats (store h cs m) !!! edge =
  if decide (edge = h.1) then <[h.2 := cs]> (stats m !!! edge)
  else stats m !!! edge.
Proof.
  unfold store; simpl. rewrite !lookup_total_alt, lookup_alter.
  case_decide as Hk; case_decide as Hk'; subst; try done.
  by destruct (stats m !! h.1).
Qed.

Lemma deref_store h h' cs m :
  deref h' (store h cs m) =
  if decide (h' = h) then (λ _, cs) <$> deref h m else deref h' m.
Proof.
  rewrite !deref_total, stats_store. destruct h as [k i], h' as [k' i']; simpl.
  case_decide as Hk; case_decide as Hh; simplify_eq.
  - rewrite list_lookup_insert.
    case_decide as Hi.
    + destruct Hi as [_ Hi]. apply lookup_lt_is_Some in Hi.
      by destruct Hi as [? ->].
    + destruct (_ !! _) eqn:Hl; [| done].
      apply lookup_lt_Some in Hl. naive_solver.
  - rewrite list_lookup_insert_ne; [done | congruence].
  - done.
Qed.



(** ** Add *)

Lemma Add_Ok caller callee procedure m :
  (0 ≤ wg m)%Z →
  Add caller callee procedure m =
  Ok ({| wg := wg m + 1;
         stats := <[tripleToKey caller callee procedure :=
                      (stats m !!! tripleToKey caller callee procedure)
                      ++ [zeroCallStats]]> (stats m) |},
      (tripleToKey caller callee procedure,
       length (stats m !!! tripleToKey caller callee procedure))).
Proof. intros Hwg. unfold Add. by rewrite wg_Add_one. Qed.

Lemma Add_inv caller callee procedure m m' h :
  Add caller callee procedure m = Ok (m', h) →
  m' = {| wg := wg m + 1;
          stats := <[h.1 := (stats m !!! h.1) ++ [zeroCallStats]]> (stats m) |}
  ∧ h = (tripleToKey caller callee procedure,
         length (stats m !!! tripleToKey caller callee procedure)).
Proof.
  unfold Add. destruct (wg_Add 1 (wg m)) as [c|] eqn:Hc; [| done].
  apply wg_Add_Ok in Hc as ->. simpl. by intros [= <- <-].
Qed.

Lemma Add_steps caller callee procedure m :
  Add caller callee procedure m =
  (m1 ←! Add_wg m; Ok (Add_store caller callee procedure m1)).
Proof.
  unfold Add, Add_wg, Add_store. by destruct (wg_Add 1 (wg m)).
Qed.

Lemma call_End_steps h m :
  call_End h m = (m1 ←! call End_incr h m; End_done m1).
Proof.
  unfold call_End, call, End, End_done.
  destruct (deref h m) as [cs|]; [| done]. simpl.
  by destruct (wg_Done (wg m)).
Qed.

Lemma stats_Add_store caller callee procedure m edge :
  stats (Add_store caller callee procedure m).1 !!! edge =
  if decide (edge = tripleToKey caller callee procedure)
  then (stats m !!! edge) ++ [zeroCallStats]
  else stats m !!! edge.
Proof.
  unfold Add_store; simpl. case_decide as Hk; subst.
  - by rewrite lookup_total_insert_eq.
  - by rewrite lookup_total_insert_ne.
Qed.

Lemma deref_Add_store caller callee procedure m h :
  deref h (Add_store caller callee procedure m).1 =
  if decide (h = (Add_store caller callee procedure m).2)
  then Some zeroCallStats else deref h m.
Proof.
  rewrite !deref_total, stats_Add_store. destruct h as [k i]; simpl.
  case_decide as Hk; case_decide as Hh; simplify_eq.
  - by rewrite list_lookup_middle.
  - destruct (decide (i < length (stats m !!! tripleToKey caller callee procedure)))
      as [Hi|Hi].
    + by rewrite lookup_app_l.
    + rewrite !lookup_ge_None_2; [done | lia |].
      rewrite length_app; simpl.
      assert (i ≠ length (stats m !!! tripleToKey caller callee procedure))
        by congruence.
      lia.
  - done.
Qed.

Lemma deref_Add_store_fresh caller callee procedure m :
  deref (Add_store caller callee procedure m).2 m = None.
Proof. rewrite deref_total; simpl. by apply lookup_ge_None_2. Qed.

(** ** Scripts *)


Lemma count_ops_cons p (o : Op Peer) ops :
  count_ops p (o :: ops) = ((if p o then 1 else 0) + count_ops p ops)%Z.
Proof.
  unfold count_ops. rewrite filter_cons.
  destruct (p o); case_decide; simpl length; try done; lia.
Qed.



Lemma call_End_inv h m m' :
  call_End h m = Ok m' →
  ∃ cs, deref h m = Some cs ∧ (0 < wg m)%Z ∧
        m' = {| wg := wg m - 1; stats := stats (store h (End_incr cs) m) |}.
Proof.
  unfold call_End, End. destruct (deref h m) as [cs|]; [| done].
  destruct (wg_Done (wg m)) as [c|] eqn:Hc; [| done]. simpl.
  apply wg_Done_Ok in Hc as [-> ?]. intros [= <-].
  exists cs. split_and!; [done | lia | done].
Qed.




(** ** A recorder with a single record *)

Lemma Add_NewMockStats caller callee procedure :
  Add caller callee procedure (NewMockStats (Peer := Peer)) =
  Ok (one_call (tripleToKey caller callee procedure) zeroCallStats 1,
      (tripleToKey caller callee procedure, 0)).
Proof.
  rewrite Add_Ok by done. simpl.
  by rewrite lookup_total_empty, insert_empty.
Qed.

Lemma deref_one_call edge cs c : deref (edge, 0) (one_call edge cs c) = Some cs.
Proof. unfold deref, one_call; simpl. by rewrite lookup_singleton_eq. Qed.

Lemma store_one_call edge cs cs' c :
  store (edge, 0) cs' (one_call edge cs c) = one_call edge cs' c.
Proof.
  unfold store, one_call; simpl. f_equal.
  by rewrite alter_singleton_eq.
Qed.

Lemma call_one_call f edge cs c :
  call f (edge, 0) (one_call edge cs c) = Ok (one_call edge (f cs) c).
Proof. unfold call. by rewrite deref_one_call, store_one_call. Qed.

Lemma call_End_one_call edge cs c :
  (0 < c)%Z →
  call_End (edge, 0) (one_call edge cs c) =
  Ok (one_call edge (End_incr cs) (c - 1)).
Proof.
  intros Hc. unfold call_End, End. rewrite deref_one_call.
  change (wg (one_call edge cs c)) with c.
  rewrite wg_Done_pos by done. cbn [bindR fst snd].
  by rewrite store_one_call.
Qed.

(** ** One pair of records *)

Lemma not_misconfigured cs :
  ¬ misconfigured cs ↔
  ended cs = 1%Z ∧ ((0 < succeeded cs)%Z ∨ failedMsgs cs ≠ []).
Proof.
  unfold misconfigured. split.
  - intros Hn. split.
    + destruct (decide (ended cs = 1%Z)); [done | tauto].
    + destruct (decide (0 < succeeded cs)%Z); [tauto |].
      right. intros Hl. apply Hn. right. split; [lia | done].
  - intros [He Ho] [?|[? ?]]; [done |]. destruct Ho; [lia | done].
Qed.

Lemma assertCallEqual_ExpectedEndNotOne cs cs' t :
  ended cs ≠ 1%Z →
  assertCallEqual cs cs' t =
  (Goexit, {| tb_failed := true;
              tb_output := tb_output t ++ [ExpectedEndNotOne] |}).
Proof.
  intros He. unfold assertCallEqual, require_Equal, assert_Equal.
  case_decide; [congruence | done].
Qed.

Lemma assertCallEqual_ExpectationWithoutOutcome cs cs' t :
  ended cs = 1%Z → (succeeded cs ≤ 0)%Z → failedMsgs cs = [] →
  assertCallEqual cs cs' t =
  (Goexit, {| tb_failed := true;
              tb_output := tb_output t ++ [ExpectationWithoutOutcome] |}).
Proof.
  intros He Hs Hf. unfold assertCallEqual, require_Equal, assert_Equal.
  case_decide; [| congruence].
  unfold require_False, assert_False.
  rewrite bool_decide_eq_true_2 by done.
  rewrite bool_decide_eq_true_2 by (by rewrite Hf). done.
Qed.

Lemma assertCallEqual_compared cs cs' t :
  ¬ misconfigured cs →
  assertCallEqual cs cs' t =
  (Return (),
   {| tb_failed := tb_failed t || bool_decide (mismatches cs cs' ≠ []);
      tb_output :=
        tb_output t ++ mismatches cs cs'
        ++ (if tb_failed t || bool_decide (mismatches cs cs' ≠ [])
            then [RelayedStats cs cs'] else []) |}).
Proof.
  intros [He Ho]%not_misconfigured.
  unfold assertCallEqual, require_Equal, assert_Equal.
  case_decide; [| congruence].
  unfold require_False, assert_False.
  assert (bool_decide (succeeded cs ≤ 0)%Z
          && bool_decide (length (failedMsgs cs) = 0) = false) as ->.
  { apply andb_false_iff. destruct Ho as [Ho|Ho].
    - left. apply bool_decide_eq_false_2. lia.
    - right. apply bool_decide_eq_false_2.
      by destruct (failedMsgs cs). }
  unfold mismatches. destruct t as [failed out].
  unfold bindT, ret, t_Errorf, t_Failed, t_Logf; simpl.
  destruct (verifyPeer cs), failed; repeat case_decide; simpl;
    rewrite ?app_nil_r, <- ?app_assoc; reflexivity.
Qed.

Lemma mismatches_nil cs cs' :
  mismatches cs cs' = [] ↔
  succeeded cs = succeeded cs' ∧ failedMsgs cs = failedMsgs cs'
  ∧ ended cs = ended cs' ∧ (verifyPeer cs = true → peer cs = peer cs').
Proof.
  unfold mismatches.
  destruct (verifyPeer cs); repeat case_decide; simpl;
    (split; [intros Hnil | intros (? & ? & ? & Hp)]);
    try discriminate; try done; exfalso; auto.
Qed.

Lemma mismatches_not_harness cs cs' r :
  r ∈ mismatches cs cs' →
  r ≠ UnexpectedEdges ∧ (∀ edge, r ≠ UnexpectedNumberOfCalls edge)
  ∧ ¬ is_harness_report r.
Proof.
  unfold mismatches, is_harness_report.
  destruct (verifyPeer cs); repeat case_decide; simpl;
    rewrite ?elem_of_cons, ?elem_of_nil;
    intros Hr; repeat (destruct Hr as [->|Hr]); try done;
    (split_and!; [done | done | by intros [?|?]]).
Qed.

(** ** What the pieces of the comparison append *)

Lemma appends_weaken {A} (Q Q' : Report Peer → Prop) (c : Test Peer A) :
  (∀ r, Q r → Q' r) → appends Q c → appends Q' c.
Proof.
  intros HQ Hc t. destruct (Hc t) as (new & Ho & Hn & Hf & Hfl).
  exists new. split_and!; [done | | done | done].
  eapply Forall_impl; eauto.
Qed.

Lemma appends_ret {A} (Q : Report Peer → Prop) (a : A) : appends Q (ret a).
Proof.
  intros t. exists []. simpl. rewrite app_nil_r, orb_false_r. done.
Qed.

Lemma appends_bind {A B} (Q : Report Peer → Prop)
    (c : Test Peer A) (k : A → Test Peer B) :
  appends Q c → (∀ a, appends Q (k a)) → appends Q (bindT c k).
Proof.
  intros Hc Hk t. destruct (Hc t) as (new1 & Ho1 & Hn1 & Hf1 & Hfl1).
  unfold bindT. destruct (c t) as [[a| |] t1] eqn:Hct; simpl in *.
  - destruct (Hk a t1) as (new2 & Ho2 & Hn2 & Hf2 & Hfl2).
    exists (new1 ++ new2). split_and!.
    + by rewrite Ho2, Ho1, app_assoc.
    + by apply Forall_app.
    + rewrite Hf2, Hf1. destruct (tb_failed t), new1, new2; done.
    + destruct ((k a t1).1); [done | | done].
      destruct Hfl2 as (pre & r & -> & Hr).
      exists (new1 ++ pre), r. by rewrite app_assoc.
  - exists new1. done.
  - done.
Qed.

Lemma appends_for_each {A} (Q : Report Peer → Prop)
    (f : A → Test Peer unit) (l : list A) :
  (∀ x, x ∈ l → appends Q (f x)) → appends Q (for_each f l).
Proof.
  induction l as [|x l IH]; intros Hf; simpl.
  - apply appends_ret.
  - apply appends_bind.
    + apply Hf. by left.
    + intros _. apply IH. intros y Hy. apply Hf. by right.
Qed.

Lemma appends_assert_Equal {A} `{EqDecision A} (Q : Report Peer → Prop)
    (x y : A) (msg : Report Peer) :
  Q msg → appends Q (assert_Equal x y msg).
Proof.
  intros Hmsg t. unfold assert_Equal. case_decide.
  - apply appends_ret.
  - exists [msg]. simpl. rewrite orb_true_r.
    split_and!; [done | by apply Forall_singleton | done | done].
Qed.

Lemma appends_assertCallEqual cs cs' :
  appends (λ r, r ≠ UnexpectedEdges ∧ ∀ edge, r ≠ UnexpectedNumberOfCalls edge)
    (assertCallEqual cs cs').
Proof.
  intros t. destruct (decide (ended cs = 1%Z)) as [He|He].
  - destruct (decide (succeeded cs ≤ 0)%Z) as [Hs|Hs];
      [destruct (decide (failedMsgs cs = [])) as [Hm|Hm] |].
    + rewrite assertCallEqual_ExpectationWithoutOutcome by done.
      exists [ExpectationWithoutOutcome]. simpl. rewrite orb_true_r.
      split_and!; [done | | done |].
      * apply Forall_singleton. done.
      * exists [], ExpectationWithoutOutcome. split; [done | by right].
    + rewrite assertCallEqual_compared
        by (apply not_misconfigured; split; [done | by right]).
      eexists. simpl. split; [done |]. split_and!; [| | done].
      * apply Forall_app. split.
        -- apply Forall_forall. intros r Hr.
           apply mismatches_not_harness in Hr. tauto.
        -- destruct (_ || _); [apply Forall_singleton | apply Forall_nil];
             done.
      * destruct (tb_failed t); simpl; [done |].
        destruct (mismatches cs cs'); done.
    + rewrite assertCallEqual_compared
        by (apply not_misconfigured; split; [done | left; lia]).
      eexists. simpl. split; [done |]. split_and!; [| | done].
      * apply Forall_app. split.
        -- apply Forall_forall. intros r Hr.
           apply mismatches_not_harness in Hr. tauto.
        -- destruct (_ || _); [apply Forall_singleton | apply Forall_nil];
             done.
      * destruct (tb_failed t); simpl; [done |].
        destruct (mismatches cs cs'); done.
  - rewrite assertCallEqual_ExpectedEndNotOne by done.
    exists [ExpectedEndNotOne]. simpl. rewrite orb_true_r.
    split_and!; [done | | done |].
    + apply Forall_singleton. done.
    + exists [], ExpectedEndNotOne. split; [done | by left].
Qed.

Lemma appends_failed {A} (Q : Report Peer → Prop) (c : Test Peer A) t :
  appends Q c → tb_failed t = true → tb_failed (c t).2 = true.
Proof.
  intros Hc Ht. destruct (Hc t) as (new & _ & _ & -> & _). by rewrite Ht.
Qed.

Lemma appends_Goexit {A} (Q : Report Peer → Prop) (c : Test Peer A) t :
  appends Q c → (c t).1 = Goexit →
  tb_failed (c t).2 = true
  ∧ ∃ pre r, tb_output (c t).2 = tb_output t ++ pre ++ [r]
             ∧ is_harness_report r.
Proof.
  intros Hc Hg. destruct (Hc t) as (new & Ho & _ & Hf & Hfl).
  rewrite Hg in Hfl. destruct Hfl as (pre & r & -> & Hr). split.
  - rewrite Hf. rewrite bool_decide_eq_true_2; [apply orb_true_r |].
    by destruct pre.
  - eauto.
Qed.

(** ** One edge *)

Lemma for_each_assertCallAt (pre pre' es as' : list (MockCallStats Peer)) t :
  length pre = length pre' → length es = length as' →
  for_each (assertCallAt (pre ++ es) (pre' ++ as'))
    (seq (length pre) (length es)) t =
  for_each (λ p, assertCallEqual p.1 p.2) (zip es as') t.
Proof.
  revert pre pre' as' t.
  induction es as [|cs es IH]; intros pre pre' [|cs' as'] t Hp Hl;
    simplify_eq/=; [done |].
  unfold bindT, assertCallAt at 1.
  rewrite list_lookup_middle by done.
  rewrite list_lookup_middle by done.
  destruct (assertCallEqual cs cs' t) as [[[]| |] t1]; [| done | done].
  specialize (IH (pre ++ [cs]) (pre' ++ [cs']) as' t1).
  rewrite <- !app_assoc, !length_app in IH. simpl in IH.
  rewrite Nat.add_1_r in IH. apply IH; [lia | done].
Qed.

Lemma assertEdgeEqual_same_length m expected edge t :
  length (stats expected !!! edge) = length (stats m !!! edge) →
  assertEdgeEqual m expected edge t =
  for_each (λ p, assertCallEqual p.1 p.2)
    (zip (stats expected !!! edge) (stats m !!! edge)) t.
Proof.
  intros Hl. unfold assertEdgeEqual, assert_Equal.
  case_decide; [| done]. unfold bindT, ret.
  by apply (for_each_assertCallAt [] []).
Qed.

Lemma assertEdgeEqual_other_length m expected edge t :
  length (stats expected !!! edge) ≠ length (stats m !!! edge) →
  assertEdgeEqual m expected edge t =
  (Return (), {| tb_failed := true;
                 tb_output := tb_output t ++ [UnexpectedNumberOfCalls edge] |}).
Proof.
  intros Hl. unfold assertEdgeEqual, assert_Equal.
  case_decide; [done |]. reflexivity.
Qed.

Lemma appends_assertEdgeEqual m expected edge :
  appends (λ r, r ≠ UnexpectedEdges) (assertEdgeEqual m expected edge).
Proof.
  intros t.
  destruct (decide (length (stats expected !!! edge)
                    = length (stats m !!! edge))) as [Hl|Hl].
  - rewrite assertEdgeEqual_same_length by done.
    apply appends_for_each. intros [cs cs'] _.
    eapply appends_weaken; [| apply appends_assertCallEqual].
    simpl. tauto.
  - rewrite assertEdgeEqual_other_length by done.
    exists [UnexpectedNumberOfCalls edge]. simpl. rewrite orb_true_r.
    split_and!; [done | by apply Forall_singleton | done | done].
Qed.

(** ** When the comparison passes *)

Lemma passes_iff_assertCallEqual cs cs' :
  passes_iff (call_matches cs cs') (assertCallEqual cs cs').
Proof.
  intros t Ht. split.
  - intros (Hc & Hm). rewrite assertCallEqual_compared by done.
    apply mismatches_nil in Hm as ->. destruct t as [failed out].
    simpl in *. subst failed. simpl. by rewrite app_nil_r.
  - destruct (decide (ended cs = 1%Z)) as [He|He];
      [| by rewrite assertCallEqual_ExpectedEndNotOne].
    destruct (decide (succeeded cs ≤ 0)%Z) as [Hs|Hs];
      [destruct (decide (failedMsgs cs = [])) as [Hm|Hm] |].
    + by rewrite assertCallEqual_ExpectationWithoutOutcome.
    + assert (¬ misconfigured cs) as Hc
        by (apply not_misconfigured; split; [done | by right]).
      rewrite assertCallEqual_compared by done. simpl.
      rewrite Ht. simpl. intros Hn%bool_decide_eq_false.
      split; [done |]. apply mismatches_nil.
      destruct (mismatches cs cs'); [done | by destruct Hn].
    + assert (¬ misconfigured cs) as Hc
        by (apply not_misconfigured; split; [done | left; lia]).
      rewrite assertCallEqual_compared by done. simpl.
      rewrite Ht. simpl. intros Hn%bool_decide_eq_false.
      split; [done |]. apply mismatches_nil.
      destruct (mismatches cs cs'); [done | by destruct Hn].
Qed.

Lemma passes_iff_for_each {A} (P : A → Prop) (Q : Report Peer → Prop)
    (f : A → Test Peer unit) (l : list A) :
  (∀ x, x ∈ l → passes_iff (P x) (f x)) →
  (∀ x, x ∈ l → appends Q (f x)) →
  passes_iff (Forall P l) (for_each f l).
Proof.
  induction l as [|x l IH]; intros Hp Ha t Ht; simpl.
  - done.
  - destruct (Hp x (list_elem_of_here _ _) t Ht) as [Hyes Hno].
    assert (passes_iff (Forall P l) (for_each f l)) as IH'.
    { apply IH; intros y Hy; [apply Hp | apply Ha]; by right. }
    split.
    + intros [Hx Hl]%Forall_cons. unfold bindT. rewrite (Hyes Hx).
      by apply IH'.
    + intros Hfin.
      assert (tb_failed (f x t).2 = false) as Hx.
      { destruct (tb_failed (f x t).2) eqn:Hfx; [| done].
        rewrite <- Hfin. unfold bindT.
        destruct (f x t) as [[[]| |] t1]; simpl in *; try done.
        symmetry. eapply appends_failed; [| done].
        apply appends_for_each. intros y Hy. apply Ha. by right. }
      specialize (Hyes (Hno Hx)). unfold bindT in Hfin.
      rewrite Hyes in Hfin. apply Forall_cons. split; [by apply Hno |].
      by apply (IH' t).
Qed.

Lemma Forall_zip_Forall2 {A B} (R : A → B → Prop) (l : list A) (k : list B) :
  length l = length k →
  Forall (λ p, R p.1 p.2) (zip l k) ↔ Forall2 R l k.
Proof.
  revert k. induction l as [|x l IH]; intros [|y k] Hl; simplify_eq/=.
  - split; constructor.
  - rewrite Forall_cons, Forall2_cons, IH by done. done.
Qed.

Lemma passes_iff_assertEdgeEqual m expected edge :
  passes_iff
    (Forall2 call_matches (stats expected !!! edge) (stats m !!! edge))
    (assertEdgeEqual m expected edge).
Proof.
  intros t Ht.
  destruct (decide (length (stats expected !!! edge)
                    = length (stats m !!! edge))) as [Hl|Hl].
  - rewrite assertEdgeEqual_same_length by done.
    rewrite <- Forall_zip_Forall2 by done.
    apply (passes_iff_for_each _
             (λ r, r ≠ UnexpectedEdges ∧ ∀ e, r ≠ UnexpectedNumberOfCalls e));
      [| | done].
    + intros [cs cs'] _. apply passes_iff_assertCallEqual.
    + intros [cs cs'] _. apply appends_assertCallEqual.
  - rewrite assertEdgeEqual_other_length by done. simpl. split; [| done].
    by intros ?%Forall2_length.
Qed.

Lemma passes_iff_compareStats order m expected :
  passes_iff
    (size (stats expected) = size (stats m)
     ∧ Forall (λ edge, Forall2 call_matches (stats expected !!! edge)
                         (stats m !!! edge)) order)
    (compareStats order m expected).
Proof.
  intros t Ht. unfold compareStats, assert_Equal. case_decide as Hsz.
  - unfold bindT, ret.
    destruct (passes_iff_for_each
                (λ edge, Forall2 call_matches (stats expected !!! edge)
                           (stats m !!! edge))
                (λ r, r ≠ UnexpectedEdges)
                (assertEdgeEqual m expected) order) with (t := t)
      as [Hyes Hno]; [| | done |].
    + intros edge _. apply passes_iff_assertEdgeEqual.
    + intros edge _. apply appends_assertEdgeEqual.
    + split; [intros [_ ?]; auto | auto].
  - simpl. split; [by intros [? _] | done].
Qed.

Lemma range_order_elem (M : gmap string (list (MockCallStats Peer))) order edge :
  range_order M order → edge ∈ order ↔ is_Some (M !! edge).
Proof.
  unfold range_order. intros ->. rewrite list_elem_of_fmap. split.
  - intros ([k calls] & -> & Hin%elem_of_map_to_list). eauto.
  - intros [calls Hk]. exists (edge, calls). split; [done |].
    by apply elem_of_map_to_list.
Qed.

(** ** The whole comparison *)

Lemma appends_compareStats order m expected :
  appends (λ _, True) (compareStats order m expected).
Proof.
  unfold compareStats. apply appends_bind.
  - by apply appends_assert_Equal.
  - intros [|]; [| apply appends_ret].
    apply appends_for_each. intros edge _.
    eapply appends_weaken; [| apply appends_assertEdgeEqual]. done.
Qed.

Lemma compareStats_other_size order m expected t :
  size (stats expected) ≠ size (stats m) →
  compareStats order m expected t =
  (Return (), {| tb_failed := true;
                 tb_output := tb_output t ++ [UnexpectedEdges] |}).
Proof.
  intros Hsz. unfold compareStats, assert_Equal. by case_decide.
Qed.

Lemma compareStats_same_size order m expected t :
  size (stats expected) = size (stats m) →
  compareStats order m expected t =
  for_each (assertEdgeEqual m expected) order t.
Proof.
  intros Hsz. unfold compareStats, assert_Equal. by case_decide.
Qed.

Lemma for_each_Goexit {A} (Q : Report Peer → Prop)
    (f : A → Test Peer unit) (l : list A) (x : A) t :
  x ∈ l → (∀ t', (f x t').1 = Goexit) →
  (∀ y, y ∈ l → appends Q (f y)) →
  (for_each f l t).1 = Goexit.
Proof.
  intros Hx Hg. revert t. induction l as [|y l IH]; intros t Ha.
  - by apply elem_of_nil in Hx.
  - simpl. unfold bindT.
    assert (appends Q (f y)) as Hy by (apply Ha; by left).
    destruct (Hy t) as (new & _ & _ & _ & Hfl).
    destruct (f y t) as [[[]| |] t1] eqn:Hfy; simpl in *; [| done | done].
    apply elem_of_cons in Hx as [->|Hx].
    + specialize (Hg t). by rewrite Hfy in Hg.
    + apply IH; [done |]. intros z Hz. apply Ha. by right.
Qed.

Lemma for_each_edge_other_length order m expected edge t :
  edge ∈ order →
  length (stats expected !!! edge) ≠ length (stats m !!! edge) →
  ∃ new,
    tb_output (for_each (assertEdgeEqual m expected) order t).2
    = tb_output t ++ new
    ∧ ((for_each (assertEdgeEqual m expected) order t).1 = Goexit
       ∨ UnexpectedNumberOfCalls edge ∈ new).
Proof.
  intros Hin Hl. revert t.
  induction order as [|e0 order IH]; intros t.
  - by apply elem_of_nil in Hin.
  - simpl. unfold bindT.
    destruct (appends_assertEdgeEqual m expected e0 t)
      as (new1 & Ho1 & _ & _ & Hfl1).
    destruct (assertEdgeEqual m expected e0 t) as [[[]| |] t1] eqn:He0;
      simpl in *; [| eauto | done].
    apply elem_of_cons in Hin as [->|Hin].
    + rewrite assertEdgeEqual_other_length in He0 by done.
      injection He0 as <-.
      destruct (appends_for_each (λ _, True) (assertEdgeEqual m expected)
                  order) with
        (t := {| tb_failed := true;
                 tb_output := tb_output t ++ [UnexpectedNumberOfCalls e0] |})
        as (new2 & Ho2 & _).
      { intros e _. eapply appends_weaken;
          [| apply appends_assertEdgeEqual]. done. }
      exists ([UnexpectedNumberOfCalls e0] ++ new2). split.
      * rewrite Ho2. simpl. by rewrite <- app_assoc.
      * right. apply elem_of_app. left. by left.
    + destruct (IH Hin t1) as (new2 & Ho2 & Hr).
      exists (new1 ++ new2). split.
      * by rewrite Ho2, Ho1, app_assoc.
      * destruct Hr as [?|?]; [by left | right].
        apply elem_of_app. by right.
Qed.

Lemma edge_only_in_expected (X Y : gset string) edge :
  size Y = size X →
  edge ∈ X ∧ edge ∉ Y ∨ edge ∈ Y ∧ edge ∉ X →
  ∃ edge', edge' ∈ Y ∧ edge' ∉ X.
Proof.
  intros Hsz Hedge. destruct (decide (Y ∖ X = ∅)) as [He|He].
  - assert (Y ⊆ X) as Hsub.
    { intros y Hy. destruct (decide (y ∈ X)); [done |].
      assert (y ∈ Y ∖ X) as Hd by set_solver. rewrite He in Hd.
      set_solver. }
    assert (Y = X) as -> by (apply set_subseteq_size_eq; [done | lia]).
    tauto.
  - apply set_choose_L in He as [y Hy]. exists y. set_solver.
Qed.

(** ** Invariants of the recorders a test can build *)

Lemma edges_nonempty_store h cs m :
  edges_nonempty m → edges_nonempty (store h cs m).
Proof.
  intros Hm edge calls. unfold store; simpl. rewrite lookup_alter.
  case_decide; subst; [| apply Hm].
  destruct (stats m !! h.1) as [old|] eqn:Hold; [| done]. simpl.
  intros [= <-]. apply Hm in Hold. intros Hnil.
  apply (f_equal length) in Hnil. rewrite length_insert in Hnil.
  by destruct old.
Qed.

Lemma edges_nonempty_exec (o : Op Peer) m m' :
  exec o m = Ok m' → edges_nonempty m → edges_nonempty m'.
Proof.
  assert (∀ c e p m1 h1, Add c e p m = Ok (m1, h1) →
                         edges_nonempty m → edges_nonempty m1) as HAdd.
  { intros c e p m1 h1 [-> _]%Add_inv Hm edge calls. simpl.
    rewrite lookup_insert. case_decide; [| apply Hm].
    intros [= <-]. by destruct (stats m !!! h1.1). }
  assert (∀ f h, call f h m = Ok m' →
                 edges_nonempty m → edges_nonempty m') as Hcall.
  { intros f h. unfold call. destruct (deref h m); [| done].
    intros [= <-]. apply edges_nonempty_store. }
  destruct o as [c e p|f|h|h r|h p|h]; simpl; eauto.
  - destruct (Add c e p m) as [[m1 h1]|] eqn:Ha; [| done].
    intros [= <-]. eauto.
  - unfold Begin. destruct (Add _ _ _ m) as [[m1 h1]|] eqn:Ha; [| done].
    intros [= <-]. eauto.
  - intros (cs & _ & _ & ->)%call_End_inv Hm edge calls. simpl.
    by apply edges_nonempty_store.
Qed.

Lemma reachable_edges_nonempty m : reachable m → edges_nonempty m.
Proof.
  intros [ops Hr].
  assert (edges_nonempty (NewMockStats (Peer := Peer))) as H0.
  { intros edge calls. simpl. by rewrite lookup_empty. }
  revert Hr H0. generalize (NewMockStats (Peer := Peer)).
  induction ops as [|o ops IH]; intros m0; simpl.
  - by intros [= <-].
  - destruct (exec o m0) as [m1|] eqn:Ho; [| done]. simpl.
    intros Hr H0. eapply IH; [done |]. by eapply edges_nonempty_exec.
Qed.

Lemma deref_Add caller callee procedure m m' h h' :
  Add caller callee procedure m = Ok (m', h) →
  deref h' m' = if decide (h' = h) then Some zeroCallStats else deref h' m.
Proof.
  rewrite Add_steps. unfold Add_wg.
  destruct (wg_Add 1 (wg m)) as [c|]; [| done]. simpl.
  intros [= <- <-].
  apply (deref_Add_store _ _ _ {| wg := c; stats := stats m |}).
Qed.

Lemma deref_Add_fresh caller callee procedure m m' h :
  Add caller callee procedure m = Ok (m', h) → deref h m = None.
Proof.
  intros [_ ->]%Add_inv. rewrite deref_total. simpl.
  by apply lookup_ge_None_2.
Qed.

Lemma is_SetPeer_on_true h (o : Op Peer) :
  is_SetPeer_on h o = true ↔ ∃ p, o = OpSetPeer h p.
Proof.
  destruct o; simpl; try (split; [done | by intros [? ?]]).
  rewrite bool_decide_eq_true. split; [intros ->; eauto |].
  by intros [? [= -> _]].
Qed.

Lemma exec_verifyPeer (o : Op Peer) m m' h cs' :
  exec o m = Ok m' → deref h m' = Some cs' →
  verifyPeer cs' = true ↔
  (∃ cs, deref h m = Some cs ∧ verifyPeer cs = true)
  ∨ is_SetPeer_on h o = true.
Proof.
  assert (∀ c e p m1 h1, Add c e p m = Ok (m1, h1) →
            deref h m1 = Some cs' →
            verifyPeer cs' = true ↔
            (∃ cs, deref h m = Some cs ∧ verifyPeer cs = true) ∨ false = true)
    as HAdd.
  { intros c e p m1 h1 Ha. rewrite (deref_Add _ _ _ _ _ _ _ Ha).
    case_decide; subst.
    - intros [= <-]. rewrite (deref_Add_fresh _ _ _ _ _ _ Ha).
      simpl. split; [done | by intros [(? & ? & ?)|?]].
    - intros ->. split; [eauto | by intros [(? & [= <-] & ?)|?]]. }
  assert (∀ f h0 c, (∀ cs, verifyPeer (f cs) = verifyPeer cs) →
            call f h0 m = Ok c → deref h {| wg := wg m'; stats := stats c |} = Some cs' →
            verifyPeer cs' = true ↔
            (∃ cs, deref h m = Some cs ∧ verifyPeer cs = true) ∨ false = true)
    as Hcall.
  { intros f h0 c Hf. unfold call.
    destruct (deref h0 m) as [cs0|] eqn:Hd0; [| done]. intros [= <-].
    change (deref h {| wg := wg m'; stats := stats (store h0 (f cs0) m) |})
      with (deref h (store h0 (f cs0) m)).
    rewrite deref_store. case_decide; subst.
    - rewrite Hd0. simpl. intros [= <-]. rewrite Hf.
      split; [eauto | by intros [(? & [= <-] & ?)|?]].
    - intros ->. split; [eauto | by intros [(? & [= <-] & ?)|?]]. }
  destruct o as [c e p|f|h0|h0 r|h0 p|h0]; simpl.
  - destruct (Add c e p m) as [[m1 h1]|] eqn:Ha; [| done].
    intros [= <-]. eauto.
  - unfold Begin. destruct (Add _ _ _ m) as [[m1 h1]|] eqn:Ha; [| done].
    intros [= <-]. eauto.
  - intros Hc Hd. apply (Hcall Succeeded h0 m'); [done | done |].
    by destruct m'.
  - intros Hc Hd. apply (Hcall (Failed r) h0 m'); [done | done |].
    by destruct m'.
  - unfold call. destruct (deref h0 m) as [cs0|] eqn:Hd0; [| done].
    intros [= <-]. rewrite deref_store. case_decide; subst.
    + rewrite Hd0. simpl. intros [= <-]. simpl.
      rewrite bool_decide_eq_true_2 by done. split; [auto | done].
    + intros ->. rewrite bool_decide_eq_false_2 by done.
      split; [eauto | by intros [(? & [= <-] & ?)|?]].
  - intros (cs0 & Hd0 & _ & ->)%call_End_inv.
    change (deref h {| wg := wg m - 1;
                       stats := stats (store h0 (End_incr cs0) m) |})
      with (deref h (store h0 (End_incr cs0) m)).
    rewrite deref_store. case_decide; subst.
    + rewrite Hd0. simpl. intros [= <-]. simpl.
      split; [eauto | by intros [(? & [= <-] & ?)|?]].
    + intros ->. split; [eauto | by intros [(? & [= <-] & ?)|?]].
Qed.

Lemma exec_deref_Some (o : Op Peer) m m' h :
  exec o m = Ok m' → is_Some (deref h m) → is_Some (deref h m').
Proof.
  assert (∀ c e p m1 h1, Add c e p m = Ok (m1, h1) →
            is_Some (deref h m) → is_Some (deref h m1)) as HAdd.
  { intros c e p m1 h1 Ha. rewrite (deref_Add _ _ _ _ _ _ _ Ha).
    by case_decide. }
  assert (∀ h0 cs, is_Some (deref h0 m) → is_Some (deref h m) →
            is_Some (deref h (store h0 cs m))) as Hstore.
  { intros h0 cs Hd0 Hd. rewrite deref_store. case_decide; [| done].
    by apply fmap_is_Some. }
  assert (∀ f h0, call f h0 m = Ok m' →
            is_Some (deref h m) → is_Some (deref h m')) as Hcall.
  { intros f h0. unfold call.
    destruct (deref h0 m) as [cs0|] eqn:Hd0; [| done]. intros [= <-].
    apply Hstore. by rewrite Hd0. }
  destruct o as [c e p|f|h0|h0 r|h0 p|h0]; simpl; eauto.
  - destruct (Add c e p m) as [[m1 h1]|] eqn:Ha; [| done].
    intros [= <-]. eauto.
  - unfold Begin. destruct (Add _ _ _ m) as [[m1 h1]|] eqn:Ha; [| done].
    intros [= <-]. eauto.
  - intros (cs0 & Hd0 & _ & ->)%call_End_inv Hd.
    apply (Hstore h0 (End_incr cs0)); [by rewrite Hd0 | done].
Qed.

Lemma run_verifyPeer (ops : list (Op Peer)) m m' h cs' :
  run ops m = Ok m' → deref h m' = Some cs' →
  verifyPeer cs' = true ↔
  (∃ cs, deref h m = Some cs ∧ verifyPeer cs = true)
  ∨ ∃ p, OpSetPeer h p ∈ ops.
Proof.
  revert m. induction ops as [|o ops IH]; intros m; simpl.
  - intros [= <-] Hd. split; [eauto |].
    intros [(? & ? & ?)|[p Hp]]; [congruence | by apply elem_of_nil in Hp].
  - destruct (exec o m) as [m1|] eqn:Ho; [| done]. simpl.
    intros Hr Hd. rewrite (IH _ Hr Hd). split.
    + intros [(cs1 & Hd1 & Hv)|[p Hp]].
      * apply (exec_verifyPeer _ _ _ _ _ Ho Hd1) in Hv as [?|Hs]; [by left |].
        apply is_SetPeer_on_true in Hs as [p Hp]. right. exists p.
        rewrite Hp. by left.
      * right. exists p. by right.
    + assert (∀ cs1, deref h m1 = Some cs1 →
                (∃ cs, deref h m = Some cs ∧ verifyPeer cs = true)
                ∨ is_SetPeer_on h o = true →
                ∃ cs1, deref h m1 = Some cs1 ∧ verifyPeer cs1 = true) as Hstep.
      { intros cs1 Hd1 Hv. exists cs1. split; [done |].
        by apply (exec_verifyPeer _ _ _ _ _ Ho Hd1). }
      intros [(cs & Hd0 & Hv)|[p Hp]].
      * left. destruct (exec_deref_Some _ _ _ h Ho) as [cs1 Hd1];
          [by rewrite Hd0 |].
        apply (Hstep cs1 Hd1). left. eauto.
      * apply elem_of_cons in Hp as [Hp|Hp]; [| right; eauto].
        left. subst o. simpl in Ho. unfold call in Ho.
        destruct (deref h m) as [cs0|] eqn:Hd0; [| done].
        destruct (exec_deref_Some (OpSetPeer h p) m m1 h) as [cs1 Hd1].
        { simpl. unfold call. by rewrite Hd0. }
        { by rewrite Hd0. }
        apply (Hstep cs1 Hd1). right. simpl.
        by apply bool_decide_eq_true_2.
Qed.

Lemma compareStats_one_call edge cs cs' c c' t :
  compareStats [edge] (one_call edge cs' c') (one_call edge cs c) t =
  bindT (assertCallEqual cs cs') (λ _, ret ()) t.
Proof.
  unfold compareStats, assert_Equal, one_call; simpl.
  rewrite !map_size_singleton. case_decide; [| done].
  unfold bindT at 1, ret at 1. unfold bindT at 1.
  rewrite assertEdgeEqual_same_length
    by (simpl; by rewrite !lookup_total_singleton_eq).
  simpl. rewrite !lookup_total_singleton_eq. simpl.
  unfold bindT, ret. by destruct (assertCallEqual cs cs' t) as [[[]| |] ?].
Qed.

(** ** The edge key *)

(** C9: the edge key does not tell ("a->b", "c", "p") from
    ("a", "b->c", "p"): both give "a->b->c::p", the two calls are recorded
    on one edge, and they compare equal to two calls along the first of the
    two triples. *)
Theorem tripleToKey_not_injective :
  ("a->b", "c", "p") ≠ ("a", "b->c", "p")
  ∧ tripleToKey "a->b" "c" "p" = "a->b->c::p"
  ∧ tripleToKey "a" "b->c" "p" = "a->b->c::p"
  ∧ ∃ actual expected : MockStats Peer,
      run [OpAdd "a->b" "c" "p"; OpSucceeded ("a->b->c::p", 0);
           OpEnd ("a->b->c::p", 0);
           OpAdd "a" "b->c" "p"; OpSucceeded ("a->b->c::p", 1);
           OpEnd ("a->b->c::p", 1)] NewMockStats = Ok actual
      ∧ run [OpAdd "a->b" "c" "p"; OpSucceeded ("a->b->c::p", 0);
             OpEnd ("a->b->c::p", 0);
             OpAdd "a->b" "c" "p"; OpSucceeded ("a->b->c::p", 1);
             OpEnd ("a->b->c::p", 1)] NewMockStats = Ok expected
      ∧ size (stats actual) = 1
      ∧ length (stats actual !!! "a->b->c::p") = 2
      ∧ range_order (stats expected) ["a->b->c::p"]
      ∧ AssertEqual ["a->b->c::p"] actual expected
          {| tb_failed := false; tb_output := [] |} =
        Some (Return (), {| tb_failed := false; tb_output := [] |}).
Proof.
  split_and!; [done | done | done |].
  eexists _, _. split_and!; [by vm_compute | by vm_compute | ..];
    by vm_compute.
Qed.



(** C5: [Succeeded] adds one to the success count and [Failed] appends its
    reason, whatever was recorded before; an actual call that succeeded and
    then failed with reason [x], compared with an expectation that only
    succeeded, fails on the failure reasons and on nothing else.  Both
    calls have their one [End]: without it on the actual call [AssertEqual]
    waits for ever, and without it on the expected one the expectation is
    refused before anything is compared. *)
Theorem Succeeded_and_Failed_both_recorded :
  (∀ cs : MockCallStats Peer,
     (- 2 ^ 63 ≤ succeeded cs < int_max)%Z →
     succeeded (Succeeded cs) = (succeeded cs + 1)%Z
     ∧ failedMsgs (Succeeded cs) = failedMsgs cs)
  ∧ (∀ (cs : MockCallStats Peer) reason,
       failedMsgs (Failed reason cs) = failedMsgs cs ++ [reason]
       ∧ succeeded (Failed reason cs) = succeeded cs)
  ∧ ∀ caller callee procedure x t,
      ∃ actual expected cs cs',
        run [OpAdd caller callee procedure;
             OpSucceeded (tripleToKey caller callee procedure, 0);
             OpFailed (tripleToKey caller callee procedure, 0) x;
             OpEnd (tripleToKey caller callee procedure, 0)]
          NewMockStats = Ok actual
        ∧ run [OpAdd caller callee procedure;
               OpSucceeded (tripleToKey caller callee procedure, 0);
               OpEnd (tripleToKey caller callee procedure, 0)]
            NewMockStats = Ok expected
        ∧ deref (tripleToKey caller callee procedure, 0) expected = Some cs
        ∧ deref (tripleToKey caller callee procedure, 0) actual = Some cs'
        ∧ succeeded cs = 1%Z ∧ failedMsgs cs = []
        ∧ succeeded cs' = 1%Z ∧ failedMsgs cs' = [x]
        ∧ range_order (stats expected) [tripleToKey caller callee procedure]
        ∧ AssertEqual [tripleToKey caller callee procedure] actual expected t
          = Some (Return (),
                  {| tb_failed := true;
                     tb_output := tb_output t
                                  ++ [UnexpectedReasons; RelayedStats cs cs'] |}).
Proof.
  split_and!.
  - intros cs Hr. simpl. by rewrite int_incr_in_range.
  - done.
  - intros caller callee procedure x t.
    set (edge := tripleToKey caller callee procedure).
    exists (one_call edge (End_incr (Failed x (Succeeded zeroCallStats))) 0),
           (one_call edge (End_incr (Succeeded zeroCallStats)) 0).
    eexists _, _.
    split_and!; try apply deref_one_call; try reflexivity.
    + cbn [run exec]. rewrite Add_NewMockStats. cbn [bindR fst snd].
      rewrite call_one_call. cbn [bindR]. rewrite call_one_call.
      cbn [bindR]. by rewrite call_End_one_call.
    + cbn [run exec]. rewrite Add_NewMockStats. cbn [bindR fst snd].
      rewrite call_one_call. cbn [bindR]. by rewrite call_End_one_call.
    + unfold range_order. simpl. by rewrite map_to_list_singleton.
    + unfold AssertEqual. simpl. rewrite compareStats_one_call.
      unfold bindT. rewrite assertCallEqual_compared.
      * simpl. destruct (tb_failed t); reflexivity.
      * apply not_misconfigured. split; [done | by left].
Qed.

(** ** The comparison of two recorders *)

(** C3: when [AssertEqual] reaches a pair of records whose expected record
    does not have exactly one [End], or has no success and no failure
    reason, the comparison of the pair stops the test with one report,
    which names the defect of the expectation and is none of the reports
    of a difference between expected and actual; the pair adds no other
    report, and [AssertEqual] as a whole ends stopped, failed, with a
    report about an expectation as its last one. *)
Theorem misconfigured_expectation_aborts order m expected t edge i cs cs' :
  wg m = 0%Z →
  range_order (stats expected) order →
  size (stats expected) = size (stats m) →
  length (stats expected !!! edge) = length (stats m !!! edge) →
  (stats expected !!! edge) !! i = Some cs →
  (stats m !!! edge) !! i = Some cs' →
  ended cs ≠ 1%Z ∨ ((succeeded cs ≤ 0)%Z ∧ failedMsgs cs = []) →
  (∃ r, (ended cs ≠ 1%Z → r = ExpectedEndNotOne)
        ∧ (ended cs = 1%Z → r = ExpectationWithoutOutcome)
        ∧ (message r = "Expected call must assert exactly one call to End."
           ∨ message r
             = "Expectation must indicate whether RPC should succeed or fail.")
        ∧ (r ∉ mismatches cs cs')
        ∧ r ≠ UnexpectedEdges
        ∧ (∀ e, r ≠ UnexpectedNumberOfCalls e)
        ∧ ∀ t0, assertCallEqual cs cs' t0 =
                (Goexit, {| tb_failed := true;
                            tb_output := tb_output t0 ++ [r] |}))
  ∧ ∃ t' pre r,
      AssertEqual order m expected t = Some (Goexit, t')
      ∧ tb_failed t' = true
      ∧ tb_output t' = tb_output t ++ pre ++ [r]
      ∧ (r = ExpectedEndNotOne ∨ r = ExpectationWithoutOutcome).
Proof.
  intros Hwg Horder Hsz Hlen Hcs Hcs' Hmis.
  assert (∀ t0, (assertCallEqual cs cs' t0).1 = Goexit) as Hpair.
  { intros t0. destruct (decide (ended cs = 1%Z)) as [He|He].
    - destruct Hmis as [?|[? ?]]; [done |].
      by rewrite assertCallEqual_ExpectationWithoutOutcome.
    - by rewrite assertCallEqual_ExpectedEndNotOne. }
  split.
  - destruct (decide (ended cs = 1%Z)) as [He|He].
    + destruct Hmis as [?|[? ?]]; [done |].
      exists ExpectationWithoutOutcome.
      split_and!; try done.
      * by right.
      * intros Hin%mismatches_not_harness.
        destruct Hin as (_ & _ & []). by right.
      * intros t0. by apply assertCallEqual_ExpectationWithoutOutcome.
    + exists ExpectedEndNotOne.
      split_and!; try done.
      * by left.
      * intros Hin%mismatches_not_harness.
        destruct Hin as (_ & _ & []). by left.
      * intros t0. by apply assertCallEqual_ExpectedEndNotOne.
  - unfold AssertEqual, wg_Wait.
    rewrite bool_decide_eq_true_2 by done.
    assert ((compareStats order m expected t).1 = Goexit) as Hgo.
    { rewrite compareStats_same_size by done.
      apply (for_each_Goexit (λ _, True) _ _ edge).
      - apply (range_order_elem _ _ _ Horder).
        rewrite lookup_total_alt in Hcs.
        destruct (stats expected !! edge); [done |].
        simpl in Hcs. by rewrite lookup_nil in Hcs.
      - intros t0. rewrite assertEdgeEqual_same_length by done.
        apply (for_each_Goexit (λ _, True) _ _ (cs, cs')).
        + apply list_elem_of_lookup. exists i.
          apply lookup_zip_with_Some. eauto.
        + done.
        + intros [y y'] _.
          eapply appends_weaken; [| apply appends_assertCallEqual]. done.
      - intros e _.
        eapply appends_weaken; [| apply appends_assertEdgeEqual]. done. }
    destruct (appends_Goexit _ _ t (appends_compareStats order m expected) Hgo)
      as (Hf & pre & r & Ho & Hr).
    destruct (compareStats order m expected t) as [fl t'] eqn:Hc.
    simpl in *. subst fl. exists t', pre, r. done.
Qed.

Lemma UnexpectedPeer_mismatches cs cs' :
  UnexpectedPeer ∈ mismatches cs cs' ↔
  verifyPeer cs = true ∧ peer cs ≠ peer cs'.
Proof.
  unfold mismatches. rewrite !elem_of_app.
  destruct (verifyPeer cs); repeat case_decide;
    rewrite ?elem_of_cons, ?elem_of_nil; split; intros Hx;
    intuition (try discriminate; try congruence).
Qed.

Lemma mismatches_SetPeer cs cs' p :
  verifyPeer cs = false →
  mismatches cs (SetPeer p cs') = mismatches cs cs'.
Proof. intros Hv. unfold mismatches. simpl. by rewrite Hv. Qed.

(** C4: the expected record asks for the peers to be compared exactly when
    [SetPeer] was called on it; a difference of peers is reported exactly
    when it was called and the peers differ; when it was never called, a
    [SetPeer] on the actual record, with any peer, changes neither the
    reports of the four comparisons nor whether the test has failed. *)
Theorem peer_compared_iff_SetPeer (ops : list (Op Peer)) expected h cs cs' t :
  run ops NewMockStats = Ok expected →
  deref h expected = Some cs →
  (verifyPeer cs = true ↔ ∃ p, OpSetPeer h p ∈ ops)
  ∧ (¬ misconfigured cs →
     ∃ new,
       (assertCallEqual cs cs' t).1 = Return ()
       ∧ tb_output (assertCallEqual cs cs' t).2 = tb_output t ++ new
       ∧ (UnexpectedPeer ∈ new ↔
          (∃ p, OpSetPeer h p ∈ ops) ∧ peer cs ≠ peer cs'))
  ∧ ((∀ p, OpSetPeer h p ∉ ops) →
     ∀ p,
       mismatches cs (SetPeer p cs') = mismatches cs cs'
       ∧ (UnexpectedPeer ∉ mismatches cs (SetPeer p cs'))
       ∧ (assertCallEqual cs (SetPeer p cs') t).1
         = (assertCallEqual cs cs' t).1
       ∧ tb_failed (assertCallEqual cs (SetPeer p cs') t).2
         = tb_failed (assertCallEqual cs cs' t).2
       ∧ (call_matches cs cs' → call_matches cs (SetPeer p cs'))).
Proof.
  intros Hr Hd.
  assert (verifyPeer cs = true ↔ ∃ p, OpSetPeer h p ∈ ops) as Hv.
  { rewrite (run_verifyPeer _ _ _ _ _ Hr Hd). split; [| by right].
    intros [(cs0 & Hd0 & _)|?]; [| done].
    unfold deref in Hd0. simpl in Hd0. by rewrite lookup_empty in Hd0. }
  split; [done |]. split.
  - intros Hc. rewrite assertCallEqual_compared by done. simpl.
    eexists. split; [done |]. split; [done |].
    rewrite <- Hv, <- UnexpectedPeer_mismatches, elem_of_app.
    split; [| by left]. intros [?|Hin]; [done |].
    destruct (_ || _); [| by apply elem_of_nil in Hin].
    by apply list_elem_of_singleton in Hin.
  - intros Hnever p.
    assert (verifyPeer cs = false) as Hf.
    { destruct (verifyPeer cs); [| done].
      destruct Hv as [[q Hq] _]; [done |]. by destruct (Hnever q). }
    assert (mismatches cs (SetPeer p cs') = mismatches cs cs') as Hm
      by by apply mismatches_SetPeer.
    split; [done |]. split.
    { rewrite UnexpectedPeer_mismatches, Hf. by intros [? _]. }
    assert (call_matches cs cs' → call_matches cs (SetPeer p cs')) as Hcm.
    { intros (? & ? & ? & ? & ?). split_and!; try done.
      rewrite Hf. done. }
    destruct (decide (ended cs = 1%Z)) as [He|He];
      [| by rewrite !assertCallEqual_ExpectedEndNotOne].
    destruct (decide (succeeded cs ≤ 0)%Z) as [Hs|Hs];
      [destruct (decide (failedMsgs cs = [])) as [Hl|Hl] |].
    + by rewrite !assertCallEqual_ExpectationWithoutOutcome.
    + rewrite !assertCallEqual_compared
        by (apply not_misconfigured; split; [done | by right]).
      simpl. by rewrite Hm.
    + rewrite !assertCallEqual_compared
        by (apply not_misconfigured; split; [done | left; lia]).
      simpl. by rewrite Hm.
Qed.

(** C8: for an edge of the expected recorder, [AssertEqual] fails when the
    two recorders hold different numbers of records on it; when the numbers
    agree the records of the edge are compared in pairs, first with first,
    second with second, and so on; [AssertEqual] leaves a test that had not
    failed unfailed exactly when the recorders have as many edges and, on
    every edge of the expected one, records that match pair by pair; and a
    record that [Add] creates is the last of its edge and moves no other
    record. *)
Theorem calls_compared_by_position order m expected t edge :
  wg m = 0%Z →
  range_order (stats expected) order →
  is_Some (stats expected !! edge) →
  (length (stats expected !!! edge) ≠ length (stats m !!! edge) →
   ∃ fl t', AssertEqual order m expected t = Some (fl, t')
            ∧ tb_failed t' = true)
  ∧ (length (stats expected !!! edge) = length (stats m !!! edge) →
     ∀ t0, assertEdgeEqual m expected edge t0 =
           for_each (λ p, assertCallEqual p.1 p.2)
             (zip (stats expected !!! edge) (stats m !!! edge)) t0)
  ∧ (tb_failed t = false →
     ∃ fl t',
       AssertEqual order m expected t = Some (fl, t')
       ∧ (tb_failed t' = false ↔
          size (stats expected) = size (stats m)
          ∧ ∀ e, is_Some (stats expected !! e) →
                 Forall2 call_matches (stats expected !!! e) (stats m !!! e))
       ∧ (tb_failed t' = false → fl = Return () ∧ t' = t))
  ∧ (∀ m0 caller callee procedure m' h,
       Add caller callee procedure m0 = Ok (m', h) →
       h.2 = length (stats m0 !!! h.1)
       ∧ stats m' !!! h.1 = (stats m0 !!! h.1) ++ [zeroCallStats]
       ∧ ∀ h', h' ≠ h → deref h' m' = deref h' m0).
Proof.
  intros Hwg Horder Hedge.
  assert (AssertEqual order m expected t
          = Some (compareStats order m expected t)) as ->.
  { unfold AssertEqual, wg_Wait. by rewrite bool_decide_eq_true_2. }
  assert (Forall (λ e, Forall2 call_matches (stats expected !!! e)
                         (stats m !!! e)) order ↔
          ∀ e, is_Some (stats expected !! e) →
               Forall2 call_matches (stats expected !!! e) (stats m !!! e))
    as Hall.
  { rewrite Forall_forall. split; intros Ha e He; apply Ha;
      by apply (range_order_elem _ _ _ Horder). }
  split_and!.
  - intros Hlen.
    destruct (compareStats order m expected t) as [fl t'] eqn:Hc.
    exists fl, t'. split; [done |].
    destruct (tb_failed t) eqn:Ht.
    + change t' with (fl, t').2. rewrite <- Hc.
      by eapply appends_failed; [apply appends_compareStats |].
    + destruct (tb_failed t') eqn:Ht'; [done | exfalso].
      destruct (passes_iff_compareStats order m expected t Ht) as [_ Hno].
      rewrite Hc in Hno. destruct (Hno Ht') as [_ Hf].
      apply Hlen. eapply Forall2_length. by apply (proj1 Hall Hf).
  - intros Hlen t0. by apply assertEdgeEqual_same_length.
  - intros Ht.
    destruct (passes_iff_compareStats order m expected t Ht) as [Hyes Hno].
    destruct (compareStats order m expected t) as [fl t'] eqn:Hc.
    exists fl, t'. split; [done |]. rewrite <- Hall. simpl in *.
    split; [split |].
    + done.
    + intros HP. by injection (Hyes HP) as _ ->.
    + intros Ht'. by injection (Hyes (Hno Ht')) as -> ->.
  - intros m0 caller callee procedure m' h Ha.
    pose proof (λ h', deref_Add _ _ _ _ _ _ h' Ha) as Hd.
    apply Add_inv in Ha as [-> ->]. simpl.
    rewrite lookup_total_insert_eq. split_and!; [done | done |].
    intros h' Hne. rewrite Hd. by case_decide.
Qed.

(** C1, as the code has it: for recorders built by calls of their methods,
    an edge that only one of the two has makes [AssertEqual] fail; the
    report is the one about unexpected edges exactly when the two recorders
    have different numbers of edges; when they have as many, either an
    expectation stops the test or the report is about the number of calls
    along an edge that only the expected recorder has. *)
Theorem edge_on_one_side_fails order m expected t edge :
  wg m = 0%Z →
  range_order (stats expected) order →
  reachable m → reachable expected →
  is_Some (stats m !! edge) ∧ stats expected !! edge = None
  ∨ is_Some (stats expected !! edge) ∧ stats m !! edge = None →
  ∃ fl t' new,
    AssertEqual order m expected t = Some (fl, t')
    ∧ tb_failed t' = true
    ∧ tb_output t' = tb_output t ++ new
    ∧ (UnexpectedEdges ∈ new ↔ size (stats expected) ≠ size (stats m))
    ∧ (size (stats expected) = size (stats m) →
       fl = Goexit
       ∨ ∃ edge', is_Some (stats expected !! edge')
                  ∧ stats m !! edge' = None
                  ∧ UnexpectedNumberOfCalls edge' ∈ new).
Proof.
  intros Hwg Horder Hm He Hedge.
  assert (AssertEqual order m expected t
          = Some (compareStats order m expected t)) as ->.
  { unfold AssertEqual, wg_Wait. by rewrite bool_decide_eq_true_2. }
  destruct (decide (size (stats expected) = size (stats m))) as [Hsz|Hsz].
  - destruct (edge_only_in_expected (dom (stats m)) (dom (stats expected)) edge)
      as (edge' & Hin & Hout).
    { by rewrite !size_dom. }
    { rewrite !elem_of_dom, <- !eq_None_not_Some. tauto. }
    apply elem_of_dom in Hin. apply not_elem_of_dom in Hout.
    assert (length (stats expected !!! edge') ≠ length (stats m !!! edge'))
      as Hlen.
    { destruct Hin as [calls Hc].
      rewrite (lookup_total_stats_Some _ _ _ Hc).
      rewrite (lookup_total_stats_None _ _ Hout).
      apply reachable_edges_nonempty in He. apply He in Hc.
      by destruct calls. }
    rewrite compareStats_same_size by done.
    destruct (for_each_edge_other_length order m expected edge' t)
      as (new & Ho & Hr); [by apply (range_order_elem _ _ _ Horder) | done |].
    destruct (appends_for_each (λ r, r ≠ UnexpectedEdges)
                (assertEdgeEqual m expected) order
                (λ e _, appends_assertEdgeEqual m expected e) t)
      as (new' & Ho' & Hn & Hf & Hfl).
    assert (new' = new) as -> by (eapply app_inv_head; by rewrite <- Ho, Ho').
    destruct (for_each (assertEdgeEqual m expected) order t) as [fl t'].
    simpl in *. exists fl, t', new. split_and!; try done.
    + rewrite Hf. rewrite bool_decide_eq_true_2; [apply orb_true_r |].
      destruct Hr as [->|Hin'].
      * destruct Hfl as (pre & r & -> & _). by destruct pre.
      * intros ->. by apply elem_of_nil in Hin'.
    + split; [| done]. intros Hin'.
      rewrite Forall_forall in Hn. by apply Hn in Hin'.
    + intros _. destruct Hr as [?|?]; [by left | right; eauto].
  - rewrite compareStats_other_size by done.
    eexists _, _, [UnexpectedEdges]. split_and!; try done.
    split; [done |]. intros _. by left.
Qed.

(** ** Calls that run at the same time *)

Lemma steps_app (tr1 tr2 : list (Step Peer)) w :
  steps (tr1 ++ tr2) w =
  match steps tr1 w with
  | Some (Ok w') => steps tr2 w'
  | r => r
  end.
Proof.
  revert w. induction tr1 as [|s tr1 IH]; intros w; simpl; [done |].
  destruct (step s w) as [[w'| ]|]; [apply IH | done | done].
Qed.

Lemma steps_snoc (tr : list (Step Peer)) s w0 w :
  steps (tr ++ [s]) w0 = Some (Ok w) ↔
  ∃ w1, steps tr w0 = Some (Ok w1) ∧ step s w1 = Some (Ok w).
Proof.
  rewrite steps_app. destruct (steps tr w0) as [[w1| ]|]; simpl.
  - split.
    + intros Hs. exists w1. split; [done |].
      by destruct (step s w1) as [[w'| ]|].
    + by intros (w2 & [= <-] & ->).
  - split; [done | by intros (? & ? & ?)].
  - split; [done | by intros (? & ? & ?)].
Qed.

Lemma ended_handles_snoc (tr : list (Step Peer)) s :
  ended_handles (tr ++ [s]) =
  ended_handles tr ++ match ended_handle s with Some h => [h] | None => [] end.
Proof.
  unfold ended_handles. rewrite omap_app. simpl.
  by destruct (ended_handle s).
Qed.

Lemma count_steps_snoc p (tr : list (Step Peer)) s :
  count_steps p (tr ++ [s]) = (count_steps p tr + (if p s then 1 else 0))%Z.
Proof.
  unfold count_steps. rewrite filter_app, length_app, filter_cons, filter_nil.
  destruct (p s); case_decide; simpl length; try done; lia.
Qed.

Lemma gmultiset_size_remove `{Countable A} (x : A) (X : gmultiset A) :
  x ∈ X → S (size (X ∖ {[+ x +]})) = size X.
Proof.
  intros Hx. assert (size X ≠ 0).
  { intros ->%gmultiset_size_empty_inv. multiset_solver. }
  rewrite gmultiset_size_difference
    by by apply gmultiset_singleton_subseteq_l.
  rewrite gmultiset_size_singleton. lia.
Qed.

Lemma world_inv_new : world_inv [] (newWorld (Peer := Peer)).
Proof.
  unfold world_inv; simpl. split_and!; try done.
  - intros h. unfold deref; simpl. rewrite lookup_empty. simpl.
    split; [by intros ?%elem_of_nil | by intros [? ?]].
  - constructor.
Qed.

(** The steps that only write through a handle and leave [ended] alone. *)
Lemma world_inv_call tr w s f h m :
  world_inv tr w →
  ended_handle s = None → is_AddWg s = false → is_EndDone s = false →
  (∀ cs, ended (f cs) = ended cs) →
  call f h (rec w) = Ok m →
  world_inv (tr ++ [s]) (with_rec m w).
Proof.
  intros (I1 & I2 & I3 & I4 & I5 & I6 & I7 & I8 & I9) Hs Ha He Hf Hc.
  unfold call in Hc. destruct (deref h (rec w)) as [cs0|] eqn:Hd0; [| done].
  injection Hc as <-.
  unfold world_inv. rewrite ended_handles_snoc, !count_steps_snoc, Hs, Ha, He.
  rewrite app_nil_r, !Z.add_0_r. simpl.
  assert (∀ h' cs', deref h' (store h (f cs0) (rec w)) = Some cs' →
            ∃ cs, deref h' (rec w) = Some cs ∧ ended cs' = ended cs) as Hd.
  { intros h' cs'. rewrite deref_store. case_decide; subst; [| eauto].
    rewrite Hd0. simpl. intros [= <-]. eauto. }
  split_and!; try done.
  - intros h'. rewrite I4, deref_store. case_decide; subst; [| done].
    rewrite Hd0. simpl. split; eauto.
  - intros h' cs' (cs & Hcs & ->)%Hd. eauto.
  - intros Hnd h' cs' (cs & Hcs & ->)%Hd. eauto.
  - intros (tr0 & tr1 & w0 & -> & ? & ?)%I9.
    exists tr0, (tr1 ++ [s]), w0. by rewrite <- app_assoc.
Qed.

Lemma world_inv_step (tr : list (Step Peer)) (w : World Peer) s w' :
  steps tr newWorld = Some (Ok w) →
  world_inv tr w → step s w = Some (Ok w') → world_inv (tr ++ [s]) w'.
Proof.
  intros Hrun Hinv Hstep.
  destruct s as [c e p|c e p|h|h r|h p|h|h| |order expected t];
    cbn [step] in Hstep.
  - (* m.wg.Add(1) *)
    destruct Hinv as (I1 & I2 & I3 & I4 & I5 & I6 & I7 & I8 & I9).
    unfold Add_wg in Hstep.
    destruct (wg_Add 1 (wg (rec w))) as [k|] eqn:Hk; [| done].
    apply wg_Add_Ok in Hk as ->. injection Hstep as <-.
    unfold world_inv.
    rewrite ended_handles_snoc, !count_steps_snoc, app_nil_r. simpl.
    rewrite gmultiset_size_disj_union, gmultiset_size_singleton.
    split_and!; try done; try lia.
    intros (tr0 & tr1 & w0 & -> & ? & ?)%I9.
    exists tr0, (tr1 ++ [StepAddWg c e p]), w0. by rewrite <- app_assoc.
  - (* the append of Add *)
    destruct Hinv as (I1 & I2 & I3 & I4 & I5 & I6 & I7 & I8 & I9).
    case_decide as Hin; [| done].
    apply gmultiset_size_remove in Hin.
    pose proof (deref_Add_store c e p (rec w)) as Hds.
    pose proof (deref_Add_store_fresh c e p (rec w)) as Hfresh.
    assert (wg (Add_store c e p (rec w)).1 = wg (rec w)) as Hwg1 by done.
    cbv zeta in Hstep. revert Hstep Hds Hfresh Hwg1.
    generalize (Add_store c e p (rec w)). intros [m1 h1]. simpl.
    intros [= <-] Hds Hfresh Hwg1.
    unfold world_inv.
    rewrite ended_handles_snoc, !count_steps_snoc, app_nil_r. simpl.
    rewrite length_app. simpl.
    assert (h1 ∉ returned w) as Hnew.
    { intros Hr%I4. rewrite Hfresh in Hr. by destruct Hr. }
    split_and!; try lia.
    + intros h'. rewrite Hds, elem_of_app, I4.
      rewrite list_elem_of_singleton.
      case_decide; subst; [split; eauto |].
      split; [by intros [?|?] | auto].
    + apply NoDup_app. split_and!; [done | | apply NoDup_singleton].
      intros h' Hh' ->%list_elem_of_singleton. done.
    + intros h' Hh'. apply elem_of_app. left. auto.
    + intros h' cs. rewrite Hds.
      case_decide; [by intros [= <-] | apply I7].
    + intros Hnd h' cs. rewrite Hds.
      case_decide; subst; [| by apply I8].
      intros _ Hh'%I6. done.
    + intros (tr0 & tr1 & w0 & -> & ? & ?)%I9.
      exists tr0, (tr1 ++ [StepAddStore c e p]), w0. by rewrite <- app_assoc.
  - destruct (call Succeeded h (rec w)) as [m|] eqn:Hc; [| done].
    simpl in Hstep. injection Hstep as <-.
    by eapply (world_inv_call _ _ _ Succeeded).
  - destruct (call (Failed r) h (rec w)) as [m|] eqn:Hc; [| done].
    simpl in Hstep. injection Hstep as <-.
    by eapply (world_inv_call _ _ _ (Failed r)).
  - destruct (call (SetPeer p) h (rec w)) as [m|] eqn:Hc; [| done].
    simpl in Hstep. injection Hstep as <-.
    by eapply (world_inv_call _ _ _ (SetPeer p)).
  - (* m.ended++ *)
    destruct Hinv as (I1 & I2 & I3 & I4 & I5 & I6 & I7 & I8 & I9).
    unfold call in Hstep.
    destruct (deref h (rec w)) as [cs0|] eqn:Hd0; [| done].
    injection Hstep as <-.
    unfold world_inv.
    rewrite ended_handles_snoc, !count_steps_snoc. simpl.
    rewrite length_app, gmultiset_size_disj_union, gmultiset_size_singleton.
    simpl.
    split_and!; try lia; try done.
    + intros h'. rewrite I4, deref_store. case_decide; subst; [| done].
      rewrite Hd0. simpl. split; eauto.
    + intros h' [Hh'|Hh'%list_elem_of_singleton]%elem_of_app; [auto |].
      subst h'. apply I4. by rewrite Hd0.
    + intros h' cs. rewrite deref_store, not_elem_of_app.
      rewrite list_elem_of_singleton.
      case_decide; subst; [by intros _ [_ ?] |].
      intros Hd [Hn _]. eauto.
    + intros [Hnd [Hnot _]]%NoDup_app h' cs. rewrite deref_store.
      case_decide; subst.
      * rewrite Hd0. simpl. intros [= <-] _. simpl.
        rewrite (I7 _ _ Hd0); [done |].
        intros Hin. apply (Hnot _ Hin). by apply list_elem_of_singleton.
      * intros Hd [Hin|Hin%list_elem_of_singleton]%elem_of_app; [| done].
        eauto.
    + intros (tr0 & tr1 & w0 & -> & ? & ?)%I9.
      exists tr0, (tr1 ++ [StepEndIncr h]), w0. by rewrite <- app_assoc.
  - (* m.wg.Done() *)
    destruct Hinv as (I1 & I2 & I3 & I4 & I5 & I6 & I7 & I8 & I9).
    case_decide as Hin; [| done]. unfold End_done in Hstep.
    destruct (wg_Done (wg (rec w))) as [k|] eqn:Hk; [| done].
    apply wg_Done_Ok in Hk as [-> _]. injection Hstep as <-.
    apply gmultiset_size_remove in Hin.
    unfold world_inv.
    rewrite ended_handles_snoc, !count_steps_snoc, app_nil_r. simpl.
    split_and!; try lia; try done.
    intros (tr0 & tr1 & w0 & -> & ? & ?)%I9.
    exists tr0, (tr1 ++ [StepEndDone h]), w0. by rewrite <- app_assoc.
  - (* m.wg.Wait() *)
    destruct (wg_Wait (wg (rec w))) eqn:Hw; [| done].
    injection Hstep as <-.
    apply bool_decide_eq_true in Hw.
    destruct Hinv as (I1 & I2 & I3 & I4 & I5 & I6 & I7 & I8 & I9).
    unfold world_inv.
    rewrite ended_handles_snoc, !count_steps_snoc, app_nil_r. simpl.
    split_and!; try lia; try done.
    intros _. by exists tr, [], w.
  - (* the comparison *)
    destruct Hinv as (I1 & I2 & I3 & I4 & I5 & I6 & I7 & I8 & I9).
    destruct (waited w); [| done]. injection Hstep as <-.
    unfold world_inv.
    rewrite ended_handles_snoc, !count_steps_snoc, app_nil_r. simpl.
    split_and!; try lia; try done.
Qed.

Lemma world_inv_steps (tr : list (Step Peer)) w :
  steps tr newWorld = Some (Ok w) → world_inv tr w.
Proof.
  revert w. induction tr as [|s tr IH] using rev_ind; intros w.
  - intros [= <-]. apply world_inv_new.
  - intros (w1 & Hrun & Hstep)%steps_snoc.
    eapply world_inv_step; eauto.
Qed.

Lemma world_counter_zero (tr : list (Step Peer)) w :
  steps tr newWorld = Some (Ok w) → wg (rec w) = 0%Z →
  count_steps is_AddWg tr = count_steps is_EndDone tr
  ∧ (NoDup (ended_handles tr) →
     adding w = ∅ ∧ ending w = ∅
     ∧ ∀ h cs, deref h (rec w) = Some cs →
               h ∈ ended_handles tr ∧ ended cs = 1%Z).
Proof.
  intros (I1 & I2 & I3 & I4 & I5 & I6 & I7 & I8 & I9)%world_inv_steps Hwg.
  split; [lia |]. intros Hnd.
  assert (ended_handles tr ⊆+ returned w) as Hsub
    by by apply NoDup_submseteq.
  pose proof (submseteq_length _ _ Hsub) as Hlen.
  assert (size (adding w) = 0) as Ha by lia.
  assert (size (ending w) = 0) as He by lia.
  apply gmultiset_size_empty_inv in Ha, He.
  split; [done |]. split; [done |].
  assert (ended_handles tr ≡ₚ returned w) as Hperm
    by (apply submseteq_length_Permutation; [done | lia]).
  intros h cs Hd.
  assert (h ∈ ended_handles tr) as Hin.
  { rewrite Hperm. apply I4. by rewrite Hd. }
  split; [done |]. by apply (I8 Hnd h cs).
Qed.

(** C2, as the code has it: in every run of steps of calls on the recorder,
    the counter is the number of calls of [Add] that have run
    [m.wg.Add(1)] minus the number of calls of [End] that have run
    [m.wg.Done()]; [m.wg.Wait()] can return only when the counter is zero;
    and a comparison is made only after a [Wait] that returned when as many
    calls of [End] had finished as calls of [Add] had started.  When
    moreover no record had [End] called twice by then, no call of [Add] or
    of [End] was half-way, and every record of the recorder had had its
    [End], once. *)
Theorem comparison_waits_for_counter
    (tr : list (Step Peer)) order expected t w :
  steps (tr ++ [StepCompare order expected t]) newWorld = Some (Ok w) →
  wg (rec w)
  = (count_steps is_AddWg tr - count_steps is_EndDone tr)%Z
  ∧ (∀ caller callee procedure m0 m' h,
       Add caller callee procedure m0 = Ok (m', h) → wg m' = (wg m0 + 1)%Z)
  ∧ (∀ h m0 m', call_End h m0 = Ok m' → wg m' = (wg m0 - 1)%Z)
  ∧ (∀ w' : World Peer, step StepWait w' = None ↔ wg (rec w') ≠ 0%Z)
  ∧ (∀ m', wg m' ≠ 0%Z → AssertEqual order m' expected t = None)
  ∧ ∃ tr0 tr1 w0 w1,
      tr = tr0 ++ StepWait :: tr1
      ∧ steps tr0 newWorld = Some (Ok w0)
      ∧ wg (rec w0) = 0%Z
      ∧ count_steps is_AddWg tr0 = count_steps is_EndDone tr0
      ∧ (NoDup (ended_handles tr0) →
         adding w0 = ∅ ∧ ending w0 = ∅
         ∧ ∀ h cs, deref h (rec w0) = Some cs →
                   h ∈ ended_handles tr0 ∧ ended cs = 1%Z)
      ∧ steps tr newWorld = Some (Ok w1)
      ∧ verdicts w = verdicts w1 ++ [compareStats order (rec w1) expected t].
Proof.
  intros (w1 & Hrun & Hstep)%steps_snoc.
  pose proof (world_inv_steps _ _ Hrun)
    as (I1 & I2 & I3 & I4 & I5 & I6 & I7 & I8 & I9).
  simpl in Hstep. destruct (waited w1) eqn:Hw; [| done].
  injection Hstep as <-. simpl.
  split; [lia |]. split.
  { intros caller callee procedure m0 m' h [-> _]%Add_inv. done. }
  split.
  { intros h m0 m' (cs & _ & _ & ->)%call_End_inv. done. }
  split.
  { intros w'. simpl. unfold wg_Wait. case_bool_decide; split; done. }
  split.
  { intros m' Hm'. unfold AssertEqual, wg_Wait.
    by rewrite bool_decide_eq_false_2. }
  destruct (I9 eq_refl) as (tr0 & tr1 & w0 & -> & Hrun0 & Hwg0).
  destruct (world_counter_zero _ _ Hrun0 Hwg0) as [Hcount Hall].
  exists tr0, tr1, w0, w1. done.
Qed.




(** ** The history of a record *)

Lemma int_incr_wrap (k : Z) : int_incr (int_wrap k) = int_wrap (k + 1).
Proof.
  unfold int_incr, int_wrap. f_equal.
  replace ((k + 2 ^ 63) mod 2 ^ 64 - 2 ^ 63 + 1 + 2 ^ 63)%Z
    with ((k + 2 ^ 63) mod 2 ^ 64 + 1)%Z by lia.
  rewrite Z.add_mod_idemp_l by lia. f_equal. lia.
Qed.

Lemma int_wrap_in_range (k : Z) :
  (- 2 ^ 63 ≤ k ≤ int_max)%Z → int_wrap k = k.
Proof.
  unfold int_wrap, int_max. intros Hk. rewrite Z.mod_small; lia.
Qed.

Lemma count_ops_snoc p (ops : list (Op Peer)) o :
  count_ops p (ops ++ [o]) = (count_ops p ops + (if p o then 1 else 0))%Z.
Proof.
  unfold count_ops. rewrite filter_app, length_app, filter_cons, filter_nil.
  destruct (p o); case_decide; simpl length; try done; lia.
Qed.

Lemma on_record_other h cs (o : Op Peer) :
  target o ≠ Some h → on_record h cs o = cs.
Proof.
  destruct o; simpl; try done; intros Hne; case_decide; congruence.
Qed.

Lemma exec_deref (o : Op Peer) m m1 h :
  exec o m = Ok m1 →
  (deref h m = None ∧ deref h m1 = Some zeroCallStats ∧ target o = None)
  ∨ (deref h m1 = (λ cs, on_record h cs o) <$> deref h m
     ∧ (deref h m = None → target o ≠ Some h)).
Proof.
  assert (∀ c e p m' h1, Add c e p m = Ok (m', h1) →
            (deref h m = None ∧ deref h m' = Some zeroCallStats)
            ∨ deref h m' = deref h m) as HAdd.
  { intros c e p m' h1 Ha. rewrite (deref_Add _ _ _ _ _ _ h Ha).
    case_decide; subst; [left | by right].
    by rewrite (deref_Add_fresh _ _ _ _ _ _ Ha). }
  assert (∀ f h0 cs0, deref h0 m = Some cs0 →
            deref h (store h0 (f cs0) m)
            = (λ cs, if decide (h0 = h) then f cs else cs) <$> deref h m
            ∧ (deref h m = None → Some h0 ≠ Some h)) as Hstore.
  { intros f h0 cs0 Hd0. rewrite deref_store. split.
    - case_decide; subst.
      + rewrite Hd0. simpl. by rewrite decide_True.
      + destruct (deref h m); simpl; [| done]. by rewrite decide_False.
    - intros Hn [= ->]. congruence. }
  destruct o as [c e p|f|h0|h0 r|h0 p|h0]; simpl.
  - destruct (Add c e p m) as [[m' h1]|] eqn:Ha; [| done]. intros [= <-].
    destruct (HAdd _ _ _ _ _ Ha) as [[? ?]|Hd]; [by left | right].
    rewrite Hd. split; [by destruct (deref h m) | done].
  - unfold Begin.
    destruct (Add _ _ _ m) as [[m' h1]|] eqn:Ha; [| done]. intros [= <-].
    destruct (HAdd _ _ _ _ _ Ha) as [[? ?]|Hd]; [by left | right].
    rewrite Hd. split; [by destruct (deref h m) | done].
  - unfold call. destruct (deref h0 m) as [cs0|] eqn:Hd0; [| done].
    intros [= <-]. right. by apply (Hstore Succeeded).
  - unfold call. destruct (deref h0 m) as [cs0|] eqn:Hd0; [| done].
    intros [= <-]. right. by apply (Hstore (Failed r)).
  - unfold call. destruct (deref h0 m) as [cs0|] eqn:Hd0; [| done].
    intros [= <-]. right. by apply (Hstore (SetPeer p)).
  - intros (cs0 & Hd0 & _ & ->)%call_End_inv. right.
    change (deref h {| wg := wg m - 1;
                       stats := stats (store h0 (End_incr cs0) m) |})
      with (deref h (store h0 (End_incr cs0) m)).
    by apply (Hstore End_incr).
Qed.

Lemma run_deref (ops : list (Op Peer)) m m' h cs' :
  run ops m = Ok m' → deref h m' = Some cs' →
  cs' = foldl (on_record h) (default zeroCallStats (deref h m)) ops.
Proof.
  revert m. induction ops as [|o ops IH]; intros m; simpl.
  - intros [= <-] ->. done.
  - destruct (exec o m) as [m1|] eqn:Ho; [| done]. simpl.
    intros Hr Hd. rewrite (IH _ Hr Hd). f_equal.
    destruct (exec_deref _ _ _ h Ho) as [(Hn & -> & Ht)|[-> Ht]].
    + rewrite Hn. simpl. rewrite on_record_other; [done | by rewrite Ht].
    + destruct (deref h m); simpl; [done |].
      rewrite on_record_other; [done | by apply Ht].
Qed.

Lemma foldl_failedMsgs h cs (ops : list (Op Peer)) :
  failedMsgs (foldl (on_record h) cs ops)
  = failedMsgs cs ++ omap (reason_on h) ops.
Proof.
  induction ops as [|o ops IH] using rev_ind; simpl.
  - by rewrite app_nil_r.
  - rewrite foldl_app, omap_app, app_assoc, <- IH. simpl.
    destruct o; simpl; try (by rewrite app_nil_r);
      case_decide; simpl; by rewrite ?app_nil_r.
Qed.

Lemma foldl_succeeded h cs k (ops : list (Op Peer)) :
  succeeded cs = int_wrap k →
  succeeded (foldl (on_record h) cs ops)
  = int_wrap (k + count_ops (is_Succeeded_on h) ops).
Proof.
  intros Hk. induction ops as [|o ops IH] using rev_ind; simpl.
  - unfold count_ops. simpl. by rewrite Z.add_0_r.
  - rewrite foldl_app, count_ops_snoc. simpl.
    destruct o; simpl; rewrite ?Z.add_0_r; try done;
      try (case_decide; done).
    case_bool_decide; case_decide; try done; simpl.
    + by rewrite IH, int_incr_wrap, Z.add_assoc.
    + by rewrite Z.add_0_r.
Qed.

Lemma foldl_ended h cs k (ops : list (Op Peer)) :
  ended cs = int_wrap k →
  ended (foldl (on_record h) cs ops)
  = int_wrap (k + count_ops (is_End_on h) ops).
Proof.
  intros Hk. induction ops as [|o ops IH] using rev_ind; simpl.
  - unfold count_ops. simpl. by rewrite Z.add_0_r.
  - rewrite foldl_app, count_ops_snoc. simpl.
    destruct o; simpl; rewrite ?Z.add_0_r; try done;
      try (case_decide; done).
    case_bool_decide; case_decide; try done; simpl.
    + by rewrite IH, int_incr_wrap, Z.add_assoc.
    + by rewrite Z.add_0_r.
Qed.

Lemma foldl_peer h cs (ops : list (Op Peer)) :
  peer (foldl (on_record h) cs ops)
  = match last (omap (peer_on h) ops) with
    | Some p => Some p
    | None => peer cs
    end.
Proof.
  induction ops as [|o ops IH] using rev_ind; simpl; [done |].
  rewrite foldl_app, omap_app. simpl.
  destruct o; simpl; rewrite ?app_nil_r; try done;
    try (case_decide; simpl; rewrite ?app_nil_r; done).
  case_decide; simpl; [by rewrite last_snoc | by rewrite app_nil_r].
Qed.

(** X1: a record holds the history of the calls made through its handle: its
    failure reasons are the reasons passed to [Failed], in the order of the
    calls; its success count and its end count are the numbers of calls of
    [Succeeded] and of [End], as 64-bit integers; its peer is the one of the
    last [SetPeer], and it has none when [SetPeer] was not called. *)
Theorem record_holds_history (ops : list (Op Peer)) m h cs :
  run ops NewMockStats = Ok m →
  deref h m = Some cs →
  failedMsgs cs = omap (reason_on h) ops
  ∧ succeeded cs = int_wrap (count_ops (is_Succeeded_on h) ops)
  ∧ ended cs = int_wrap (count_ops (is_End_on h) ops)
  ∧ peer cs = last (omap (peer_on h) ops)
  ∧ ((count_ops (is_Succeeded_on h) ops ≤ int_max)%Z →
     succeeded cs = count_ops (is_Succeeded_on h) ops)
  ∧ ((count_ops (is_End_on h) ops ≤ int_max)%Z →
     ended cs = count_ops (is_End_on h) ops).
Proof.
  intros Hr Hd. rewrite (run_deref _ _ _ _ _ Hr Hd).
  assert (deref h (NewMockStats (Peer := Peer)) = None) as ->.
  { unfold deref. simpl. by rewrite lookup_empty. }
  simpl.
  assert (succeeded (foldl (on_record h) zeroCallStats ops)
          = int_wrap (count_ops (is_Succeeded_on h) ops)) as Hs
    by (by rewrite (foldl_succeeded h _ 0)).
  assert (ended (foldl (on_record h) zeroCallStats ops)
          = int_wrap (count_ops (is_End_on h) ops)) as He
    by (by rewrite (foldl_ended h _ 0)).
  split_and!.
  - by rewrite foldl_failedMsgs.
  - done.
  - done.
  - rewrite foldl_peer. simpl. by destruct (last _).
  - intros Hle. rewrite Hs. apply int_wrap_in_range.
    unfold count_ops in *. lia.
  - intros Hle. rewrite He. apply int_wrap_in_range.
    unfold count_ops in *. lia.
Qed.

(** ** The shape of the map *)

Lemma length_stats_store h cs m edge :
  length (stats (store h cs m) !!! edge) = length (stats m !!! edge).
Proof. rewrite stats_store. case_decide; by rewrite ?length_insert. Qed.

Lemma dom_stats_store h cs m : dom (stats (store h cs m)) = dom (stats m).
Proof.
  unfold store; simpl. apply set_eq. intros k.
  rewrite !elem_of_dom, lookup_alter. case_decide; subst; [| done].
  by rewrite fmap_is_Some.
Qed.

Lemma exec_shape (o : Op Peer) m m' :
  exec o m = Ok m' → target o ≠ None →
  dom (stats m') = dom (stats m)
  ∧ ∀ edge, length (stats m' !!! edge) = length (stats m !!! edge).
Proof.
  assert (∀ f h, call f h m = Ok m' →
            dom (stats m') = dom (stats m)
            ∧ ∀ edge, length (stats m' !!! edge) = length (stats m !!! edge))
    as Hcall.
  { intros f h. unfold call. destruct (deref h m); [| done].
    intros [= <-]. split; [apply dom_stats_store |].
    intros edge. apply length_stats_store. }
  destruct o as [c e p|f|h|h r|h p|h]; simpl; try done; eauto.
  intros (cs & _ & _ & ->)%call_End_inv _. simpl.
  split; [apply dom_stats_store |]. intros edge. apply length_stats_store.
Qed.

Lemma exec_length (o : Op Peer) m m' edge :
  exec o m = Ok m' →
  Z.of_nat (length (stats m' !!! edge))
  = (Z.of_nat (length (stats m !!! edge))
     + (if is_new_call_on edge o then 1 else 0))%Z.
Proof.
  assert (∀ c e p m1 h1, Add c e p m = Ok (m1, h1) →
            Z.of_nat (length (stats m1 !!! edge))
            = (Z.of_nat (length (stats m !!! edge))
               + (if bool_decide (tripleToKey c e p = edge) then 1 else 0))%Z)
    as HAdd.
  { intros c e p m1 h1 [-> ->]%Add_inv. simpl. case_bool_decide; subst.
    - rewrite lookup_total_insert_eq, length_app. simpl. lia.
    - rewrite lookup_total_insert_ne by done. lia. }
  destruct (decide (target o = None)) as [Ht|Ht].
  - destruct o as [c e p|f|h|h r|h p|h]; simpl in *; try done.
    + destruct (Add c e p m) as [[m1 h1]|] eqn:Ha; [| done].
      intros [= <-]. eauto.
    + unfold Begin. destruct (Add _ _ _ m) as [[m1 h1]|] eqn:Ha; [| done].
      intros [= <-]. eauto.
  - intros Ho. destruct (exec_shape _ _ _ Ho Ht) as [_ ->].
    destruct o; simpl in *; try done; lia.
Qed.

Lemma run_length (ops : list (Op Peer)) m m' edge :
  run ops m = Ok m' →
  Z.of_nat (length (stats m' !!! edge))
  = (Z.of_nat (length (stats m !!! edge))
     + count_ops (is_new_call_on edge) ops)%Z.
Proof.
  revert m. induction ops as [|o ops IH]; intros m; simpl.
  - intros [= <-]. unfold count_ops. simpl. lia.
  - destruct (exec o m) as [m1|] eqn:Ho; [| done]. simpl. intros Hr.
    rewrite (IH _ Hr), (exec_length _ _ _ edge Ho), count_ops_cons. lia.
Qed.

(** X2: on a recorder built by a script, the number of records along an edge
    is the number of calls of [Add] and [Begin] whose three strings give that
    key, and the edge is in the map exactly when there is such a call. *)
Theorem edge_holds_its_calls (ops : list (Op Peer)) m edge :
  run ops NewMockStats = Ok m →
  Z.of_nat (length (stats m !!! edge)) = count_ops (is_new_call_on edge) ops
  ∧ (is_Some (stats m !! edge) ↔ (0 < count_ops (is_new_call_on edge) ops)%Z).
Proof.
  intros Hr. pose proof (run_length _ _ _ edge Hr) as Hl.
  change (stats (NewMockStats (Peer := Peer))) with
    (∅ : gmap string (list (MockCallStats Peer))) in Hl.
  rewrite lookup_total_empty in Hl.
  assert (Z.of_nat (length (stats m !!! edge))
          = count_ops (is_new_call_on edge) ops) as Hl'
    by (rewrite Hl; simpl; lia).
  split; [done |]. rewrite <- Hl'. split.
  - intros [calls Hc]. rewrite (lookup_total_stats_Some _ _ _ Hc).
    assert (reachable m) as Hm by by exists ops.
    apply reachable_edges_nonempty in Hm. apply Hm in Hc.
    destruct calls; [done | simpl; lia].
  - destruct (stats m !! edge) as [calls|] eqn:Hc; [eauto |].
    rewrite (lookup_total_stats_None _ _ Hc). simpl. lia.
Qed.

(** X3: a call of [Succeeded], [Failed], [SetPeer] or [End] through one
    handle leaves every other record as it was and changes neither the edges
    of the map nor the number of records along any of them; [Add] and [Begin]
    leave every record there was as it was; no call removes a record; and a
    call through a handle that denotes no record does not return. *)
Theorem calls_are_local (o : Op Peer) m m' :
  exec o m = Ok m' →
  (∀ h, target o ≠ Some h → is_Some (deref h m) → deref h m' = deref h m)
  ∧ (∀ h, is_Some (deref h m) → is_Some (deref h m'))
  ∧ (∀ h, target o = Some h → is_Some (deref h m))
  ∧ (target o ≠ None →
     dom (stats m') = dom (stats m)
     ∧ ∀ edge, length (stats m' !!! edge) = length (stats m !!! edge)).
Proof.
  intros Ho. split_and!.
  - intros h Ht [cs Hd].
    destruct (exec_deref _ _ _ h Ho) as [(Hn & _)|[-> _]]; [congruence |].
    rewrite Hd. simpl. by rewrite on_record_other.
  - intros h. apply (exec_deref_Some _ _ _ h Ho).
  - intros h Ht. destruct (deref h m) eqn:Hd; [eauto |].
    destruct (exec_deref _ _ _ h Ho) as [(_ & _ & Hn)|[_ Hn]]; [congruence |].
    by destruct (Hn Hd).
  - by apply exec_shape.
Qed.

(** ** FluentMockCallStats *)

Lemma Fluent_valid (d : Decl Peer) h m cs :
  deref h m = Some cs → Fluent d h m = Ok (store h (declare cs d) m, h).
Proof.
  intros Hd.
  destruct d; simpl;
    unfold Fluent_Succeeded, Fluent_Failed, Fluent_SetPeer, call;
    by rewrite Hd.
Qed.

(** X4: a chain of declarations made through the handle of a record, as in
    [Add(...).Succeeded().SetPeer(p)], does not panic and gives back the same
    handle; afterwards the record is the old one with the declarations
    applied in their order, the counter of pending calls is unchanged, and so
    are all other records and the number of records along every edge. *)
Theorem fluent_chain_declares (ds : list (Decl Peer)) h m cs :
  deref h m = Some cs →
  ∃ m', fluent_chain ds h m = Ok (m', h)
        ∧ deref h m' = Some (foldl declare cs ds)
        ∧ wg m' = wg m
        ∧ (∀ h', h' ≠ h → deref h' m' = deref h' m)
        ∧ ∀ edge, length (stats m' !!! edge) = length (stats m !!! edge).
Proof.
  revert m cs. induction ds as [|d ds IH]; intros m cs Hd; simpl.
  - exists m. done.
  - rewrite (Fluent_valid _ _ _ _ Hd). simpl.
    destruct (IH (store h (declare cs d) m) (declare cs d))
      as (m' & Hc & Hd' & Hwg & Hother & Hlen).
    { rewrite deref_store, decide_True by done. by rewrite Hd. }
    exists m'. split_and!; try done.
    + intros h' Hne. rewrite (Hother h' Hne), deref_store.
      by rewrite decide_False.
    + intros edge. by rewrite Hlen, length_stats_store.
Qed.

(** ** More on the comparison *)

Lemma AssertEqual_Some order m expected t fl t' :
  AssertEqual order m expected t = Some (fl, t') ↔
  wg m = 0%Z ∧ compareStats order m expected t = (fl, t').
Proof.
  unfold AssertEqual, wg_Wait. case_bool_decide; split.
  - by intros [= <-].
  - by intros [_ ->].
  - done.
  - by intros [? _].
Qed.

(** X5: whatever the two recorders, [AssertEqual] only adds reports after
    those already written, leaves the test failed exactly when it had failed
    before or a report was added, and never reads a slice out of range; when
    it stops the test, the test has failed and the last report is one of the
    two about an expectation. *)
Theorem AssertEqual_only_adds_reports order m expected t fl t' :
  AssertEqual order m expected t = Some (fl, t') →
  ∃ new,
    tb_output t' = tb_output t ++ new
    ∧ tb_failed t' = tb_failed t || bool_decide (new ≠ [])
    ∧ (tb_failed t = true → tb_failed t' = true)
    ∧ fl ≠ IndexPanic
    ∧ (fl = Goexit →
       tb_failed t' = true
       ∧ ∃ pre r, new = pre ++ [r]
                  ∧ (r = ExpectedEndNotOne ∨ r = ExpectationWithoutOutcome)).
Proof.
  intros [_ Hc]%AssertEqual_Some.
  destruct (appends_compareStats order m expected t)
    as (new & Ho & _ & Hf & Hfl).
  rewrite Hc in Ho, Hf, Hfl. simpl in *. exists new.
  split_and!; try done.
  - intros Ht. by rewrite Hf, Ht.
  - by intros ->.
  - intros ->. destruct Hfl as (pre & r & -> & Hr). split; [| eauto].
    rewrite Hf, bool_decide_eq_true_2; [apply orb_true_r | by destruct pre].
Qed.

Lemma for_each_Goexit_inv {A} (Q : Report Peer → Prop)
    (f : A → Test Peer unit) (l : list A) t :
  (for_each f l t).1 = Goexit → ∃ x t', x ∈ l ∧ (f x t').1 = Goexit.
Proof.
  revert t. induction l as [|y l IH]; intros t; simpl; [done |].
  unfold bindT. destruct (f y t) as [[[]| |] t1] eqn:Hy; simpl.
  - intros (x & t' & Hx & Hg)%IH. exists x, t'. split; [by right | done].
  - intros _. exists y, t. split; [by left | by rewrite Hy].
  - done.
Qed.

Lemma assertCallEqual_Goexit cs cs' t :
  (assertCallEqual cs cs' t).1 = Goexit ↔ misconfigured cs.
Proof.
  split.
  - intros Hg. destruct (decide (ended cs = 1%Z)) as [He|He]; [| by left].
    destruct (decide (succeeded cs ≤ 0)%Z) as [Hs|Hs];
      [destruct (decide (failedMsgs cs = [])) as [Hm|Hm] |].
    + by right.
    + rewrite assertCallEqual_compared in Hg; [done |].
      apply not_misconfigured. split; [done | by right].
    + rewrite assertCallEqual_compared in Hg; [done |].
      apply not_misconfigured. split; [done | left; lia].
  - intros Hmis. destruct (decide (ended cs = 1%Z)) as [He|He].
    + destruct Hmis as [?|[? ?]]; [done |].
      by rewrite assertCallEqual_ExpectationWithoutOutcome.
    + by rewrite assertCallEqual_ExpectedEndNotOne.
Qed.

Lemma assertEdgeEqual_Goexit m expected edge t :
  (assertEdgeEqual m expected edge t).1 = Goexit ↔
  length (stats expected !!! edge) = length (stats m !!! edge)
  ∧ ∃ i cs cs', (stats expected !!! edge) !! i = Some cs
                ∧ (stats m !!! edge) !! i = Some cs'
                ∧ misconfigured cs.
Proof.
  destruct (decide (length (stats expected !!! edge)
                    = length (stats m !!! edge))) as [Hl|Hl].
  - rewrite assertEdgeEqual_same_length by done. split.
    + intros ([cs cs'] & t' & Hin & Hg)%(for_each_Goexit_inv (λ _, True)).
      apply assertCallEqual_Goexit in Hg.
      apply list_elem_of_lookup in Hin as [i Hi].
      apply lookup_zip_with_Some in Hi as (x & y & [= <- <-] & ? & ?).
      split; [done |]. by exists i, cs, cs'.
    + intros (_ & i & cs & cs' & Hcs & Hcs' & Hmis).
      apply (for_each_Goexit (λ _, True) _ _ (cs, cs')).
      * apply list_elem_of_lookup. exists i.
        apply lookup_zip_with_Some. eauto.
      * intros t'. by apply assertCallEqual_Goexit.
      * intros [y y'] _.
        eapply appends_weaken; [| apply appends_assertCallEqual]. done.
  - rewrite assertEdgeEqual_other_length by done. simpl.
    split; [done | by intros [? _]].
Qed.

Lemma compareStats_Goexit order m expected t :
  range_order (stats expected) order →
  (compareStats order m expected t).1 = Goexit ↔
  size (stats expected) = size (stats m)
  ∧ ∃ edge i cs cs', compared_pair m expected edge i cs cs'
                     ∧ misconfigured cs.
Proof.
  intros Horder.
  destruct (decide (size (stats expected) = size (stats m))) as [Hsz|Hsz].
  - rewrite compareStats_same_size by done. split.
    + intros (edge & t' & Hin & Hg)%(for_each_Goexit_inv (λ _, True)).
      apply assertEdgeEqual_Goexit in Hg
        as (Hl & i & cs & cs' & Hcs & Hcs' & Hmis).
      split; [done |]. exists edge, i, cs, cs'. split; [| done].
      split_and!; try done. by apply (range_order_elem _ _ _ Horder).
    + intros (_ & edge & i & cs & cs' & (He & Hl & Hcs & Hcs') & Hmis).
      apply (for_each_Goexit (λ _, True) _ _ edge).
      * by apply (range_order_elem _ _ _ Horder).
      * intros t'. apply assertEdgeEqual_Goexit. split; [done |].
        by exists i, cs, cs'.
      * intros e _.
        eapply appends_weaken; [| apply appends_assertEdgeEqual]. done.
  - rewrite compareStats_other_size by done. simpl.
    split; [done | by intros [? _]].
Qed.

Lemma compareStats_failed order m expected t :
  range_order (stats expected) order →
  tb_failed (compareStats order m expected t).2 = false ↔
  tb_failed t = false
  ∧ size (stats expected) = size (stats m)
  ∧ ∀ e, is_Some (stats expected !! e) →
         Forall2 call_matches (stats expected !!! e) (stats m !!! e).
Proof.
  intros Horder.
  assert (Forall (λ e, Forall2 call_matches (stats expected !!! e)
                         (stats m !!! e)) order ↔
          ∀ e, is_Some (stats expected !! e) →
               Forall2 call_matches (stats expected !!! e) (stats m !!! e))
    as Hall.
  { rewrite Forall_forall. split; intros Ha e He; apply Ha;
      by apply (range_order_elem _ _ _ Horder). }
  rewrite <- Hall. destruct (tb_failed t) eqn:Ht.
  - rewrite (appends_failed _ _ _ (appends_compareStats order m expected) Ht).
    split; [done | by intros [? _]].
  - destruct (passes_iff_compareStats order m expected t Ht) as [Hyes Hno].
    split.
    + intros Hf. split; [done |]. by apply Hno.
    + intros [_ HP]. by rewrite (Hyes HP).
Qed.

(** X6: the order in which Go visits the edges of the expected recorder
    changes neither whether [AssertEqual] fails the test nor whether it stops
    the test. *)
Theorem AssertEqual_verdict_ignores_range_order order1 order2 m expected t :
  range_order (stats expected) order1 →
  range_order (stats expected) order2 →
  (compareStats order1 m expected t).1 = (compareStats order2 m expected t).1
  ∧ tb_failed (compareStats order1 m expected t).2
    = tb_failed (compareStats order2 m expected t).2
  ∧ (∀ fl1 t1 fl2 t2,
       AssertEqual order1 m expected t = Some (fl1, t1) →
       AssertEqual order2 m expected t = Some (fl2, t2) →
       fl1 = fl2 ∧ tb_failed t1 = tb_failed t2).
Proof.
  intros Ho1 Ho2.
  assert ((compareStats order1 m expected t).1
          = (compareStats order2 m expected t).1) as Hfl.
  { pose proof (compareStats_Goexit order1 m expected t Ho1) as H1.
    pose proof (compareStats_Goexit order2 m expected t Ho2) as H2.
    destruct (appends_compareStats order1 m expected t)
      as (n1 & _ & _ & _ & P1).
    destruct (appends_compareStats order2 m expected t)
      as (n2 & _ & _ & _ & P2).
    destruct ((compareStats order1 m expected t).1) as [[]| |];
      destruct ((compareStats order2 m expected t).1) as [[]| |];
      try done.
    - exact (proj2 H1 (proj1 H2 eq_refl)).
    - symmetry. exact (proj2 H2 (proj1 H1 eq_refl)). }
  assert (tb_failed (compareStats order1 m expected t).2
          = tb_failed (compareStats order2 m expected t).2) as Hf.
  { pose proof (compareStats_failed order1 m expected t Ho1) as H1.
    pose proof (compareStats_failed order2 m expected t Ho2) as H2.
    destruct (tb_failed (compareStats order1 m expected t).2);
      destruct (tb_failed (compareStats order2 m expected t).2); try done.
    - exact (proj2 H1 (proj1 H2 eq_refl)).
    - symmetry. exact (proj2 H2 (proj1 H1 eq_refl)). }
  split; [done |]. split; [done |].
  intros fl1 t1 fl2 t2 [_ H1]%AssertEqual_Some [_ H2]%AssertEqual_Some.
  rewrite H1, H2 in Hfl, Hf. done.
Qed.

(** X7: [AssertEqual] stops the test exactly when the two recorders have as
    many edges and some pair it compares, on an edge where they hold as many
    records, has an expected record without exactly one [End] or without any
    outcome; differences between expected and actual never stop it. *)
Theorem AssertEqual_stops_iff_misconfigured order m expected t fl t' :
  range_order (stats expected) order →
  AssertEqual order m expected t = Some (fl, t') →
  fl = Goexit ↔
  size (stats expected) = size (stats m)
  ∧ ∃ edge i cs cs',
      compared_pair m expected edge i cs cs'
      ∧ (ended cs ≠ 1%Z ∨ ((succeeded cs ≤ 0)%Z ∧ failedMsgs cs = [])).
Proof.
  intros Horder [_ Hc]%AssertEqual_Some.
  rewrite <- (compareStats_Goexit order m expected t Horder), Hc. done.
Qed.

Lemma for_each_reports {A} (Q : Report Peer → Prop)
    (f : A → Test Peer unit) (l : list A) (x : A) (r : Report Peer) t :
  x ∈ l →
  (∀ y, y ∈ l → appends Q (f y)) →
  (∀ t', (f x t').1 = Return () →
         ∃ new, tb_output (f x t').2 = tb_output t' ++ new ∧ r ∈ new) →
  (for_each f l t).1 = Return () →
  ∃ new, tb_output (for_each f l t).2 = tb_output t ++ new ∧ r ∈ new.
Proof.
  intros Hx Ha Hr. revert t. induction l as [|y l IH]; intros t.
  - by apply elem_of_nil in Hx.
  - simpl. unfold bindT.
    destruct (Ha y (list_elem_of_here _ _) t) as (new1 & Ho1 & _).
    assert (∀ z, z ∈ l → appends Q (f z)) as Ha'
      by (intros z Hz; apply Ha; by right).
    destruct (f y t) as [[[]| |] t1] eqn:Hy; simpl in *; [| done | done].
    intros Hfl. apply elem_of_cons in Hx as [->|Hx].
    + destruct (Hr t) as (new & Ho & Hin); [by rewrite Hy |].
      rewrite Hy in Ho. simpl in Ho.
      destruct (appends_for_each Q f l Ha' t1) as (new2 & Ho2 & _).
      exists (new ++ new2). split.
      * by rewrite Ho2, Ho, app_assoc.
      * apply elem_of_app. by left.
    + destruct (IH Hx Ha' t1 Hfl) as (new2 & Ho2 & Hin).
      exists (new1 ++ new2). split.
      * by rewrite Ho2, Ho1, app_assoc.
      * apply elem_of_app. by right.
Qed.

Lemma assertCallEqual_reports cs cs' t :
  ¬ call_matches cs cs' →
  (assertCallEqual cs cs' t).1 = Return () →
  ∃ new, tb_output (assertCallEqual cs cs' t).2 = tb_output t ++ new
         ∧ RelayedStats cs cs' ∈ new.
Proof.
  intros Hnm Hfl.
  assert (¬ misconfigured cs) as Hc.
  { intros Hmis. apply (assertCallEqual_Goexit cs cs' t) in Hmis.
    by rewrite Hfl in Hmis. }
  rewrite assertCallEqual_compared by done. simpl. eexists. split; [done |].
  apply elem_of_app. right.
  rewrite (bool_decide_eq_true_2 (mismatches cs cs' ≠ [])), orb_true_r.
  - by left.
  - intros Hnil%mismatches_nil. by apply Hnm.
Qed.

(** X8: when the two recorders have as many edges and [AssertEqual] returns
    without stopping the test, it has gone through every edge of the expected
    recorder: its reports name every edge along which the numbers of records
    differ, and hold the dump of every compared pair that does not match. *)
Theorem AssertEqual_reports_every_difference order m expected t t' :
  range_order (stats expected) order →
  size (stats expected) = size (stats m) →
  AssertEqual order m expected t = Some (Return (), t') →
  (∀ edge,
     is_Some (stats expected !! edge) →
     length (stats expected !!! edge) ≠ length (stats m !!! edge) →
     ∃ new, tb_output t' = tb_output t ++ new
            ∧ UnexpectedNumberOfCalls edge ∈ new)
  ∧ (∀ edge i cs cs',
       compared_pair m expected edge i cs cs' →
       ¬ call_matches cs cs' →
       ∃ new, tb_output t' = tb_output t ++ new
              ∧ RelayedStats cs cs' ∈ new).
Proof.
  intros Horder Hsz [_ Hc]%AssertEqual_Some.
  rewrite compareStats_same_size in Hc by done.
  assert (∀ e, e ∈ order →
               appends (λ _, True) (assertEdgeEqual m expected e)) as Ha.
  { intros e _. eapply appends_weaken; [| apply appends_assertEdgeEqual].
    done. }
  assert ((for_each (assertEdgeEqual m expected) order t).1 = Return ())
    as Hfl by by rewrite Hc.
  split.
  - intros edge He Hl.
    destruct (for_each_reports (λ _, True) (assertEdgeEqual m expected) order
                edge (UnexpectedNumberOfCalls edge) t) as (new & Ho & Hin);
      try done.
    + by apply (range_order_elem _ _ _ Horder).
    + intros t0 _. rewrite assertEdgeEqual_other_length by done. simpl.
      exists [UnexpectedNumberOfCalls edge]. split; [done | by left].
    + rewrite Hc in Ho. eauto.
  - intros edge i cs cs' (He & Hl & Hcs & Hcs') Hnm.
    destruct (for_each_reports (λ _, True) (assertEdgeEqual m expected) order
                edge (RelayedStats cs cs') t) as (new & Ho & Hin);
      try done.
    + by apply (range_order_elem _ _ _ Horder).
    + intros t0. rewrite assertEdgeEqual_same_length by done.
      apply (for_each_reports (λ _, True) _ _ (cs, cs')).
      * apply list_elem_of_lookup. exists i.
        apply lookup_zip_with_Some. eauto.
      * intros [y y'] _.
        eapply appends_weaken; [| apply appends_assertCallEqual]. done.
      * intros t1. by apply assertCallEqual_reports.
    + rewrite Hc in Ho. eauto.
Qed.

Lemma RelayedStats_not_mismatch cs cs' x y :
  RelayedStats x y ∉ mismatches cs cs'.
Proof.
  unfold mismatches.
  destruct (verifyPeer cs); repeat case_decide; simpl;
    rewrite ?elem_of_cons, ?elem_of_nil;
    intros Hr; repeat (destruct Hr as [Hr|Hr]; [discriminate |]); done.
Qed.

(** X9: for an expected record with exactly one [End] and an outcome, the
    comparison of a pair returns; it writes the reports of the differences in
    the order successes, reasons, ends, peer; and it logs the dump of the two
    records exactly when the test has failed by then, so also for a pair that
    matches when the test had failed before. *)
Theorem assertCallEqual_dumps_when_failed cs cs' t :
  ended cs = 1%Z →
  (0 < succeeded cs)%Z ∨ failedMsgs cs ≠ [] →
  ∃ new,
    assertCallEqual cs cs' t
    = (Return (), {| tb_failed := tb_failed t || bool_decide (new ≠ []);
                     tb_output := tb_output t ++ new |})
    ∧ (RelayedStats cs cs' ∈ new ↔
       tb_failed t = true ∨ ¬ call_matches cs cs')
    ∧ (∃ dump, new = mismatches cs cs' ++ dump
               ∧ (dump = [] ∨ dump = [RelayedStats cs cs']))
    ∧ (call_matches cs cs' → tb_failed t = true →
       new = [RelayedStats cs cs'])
    ∧ (call_matches cs cs' → tb_failed t = false → new = []).
Proof.
  intros He Ho.
  assert (¬ misconfigured cs) as Hc by (by apply not_misconfigured).
  assert (call_matches cs cs' ↔ mismatches cs cs' = []) as Hm.
  { rewrite mismatches_nil. unfold call_matches. tauto. }
  exists (mismatches cs cs'
          ++ (if tb_failed t || bool_decide (mismatches cs cs' ≠ [])
              then [RelayedStats cs cs'] else [])).
  split_and!.
  - rewrite assertCallEqual_compared by done. f_equal. f_equal.
    destruct (tb_failed t); simpl; [done |].
    destruct (mismatches cs cs'); done.
  - rewrite elem_of_app, Hm. split.
    + intros [Hin|Hin].
      * by apply RelayedStats_not_mismatch in Hin.
      * destruct (tb_failed t); simpl in *; [by left | right].
        case_bool_decide; [done | by apply elem_of_nil in Hin].
    + intros [->|Hn]; right; simpl; [by left |].
      rewrite bool_decide_eq_true_2, orb_true_r by done. by left.
  - eexists. split; [done |]. destruct (_ || _); auto.
  - intros Hnil%Hm ->. by rewrite Hnil.
  - intros Hnil%Hm ->. by rewrite Hnil.
Qed.

Lemma for_each_assertEdgeEqual_empty order m expected t :
  stats expected = ∅ → stats m = ∅ →
  for_each (assertEdgeEqual m expected) order t = (Return (), t).
Proof.
  intros He Hm. induction order as [|edge order IH]; simpl; [done |].
  unfold bindT. rewrite assertEdgeEqual_same_length.
  - rewrite He, Hm, !lookup_total_empty. simpl. apply IH.
  - by rewrite He, Hm, !lookup_total_empty.
Qed.

(** X10: when one of the two recorders has no edge, [AssertEqual] passes
    exactly when the other has none either; otherwise its one report is the
    one about unexpected edges, and no edge is looked at. *)
Theorem AssertEqual_with_an_empty_recorder order m expected t :
  wg m = 0%Z →
  stats expected = ∅ ∨ stats m = ∅ →
  AssertEqual order m expected t
  = Some (Return (),
          if decide (stats expected = stats m) then t
          else {| tb_failed := true;
                  tb_output := tb_output t ++ [UnexpectedEdges] |}).
Proof.
  intros Hwg Hempty. unfold AssertEqual, wg_Wait.
  rewrite bool_decide_eq_true_2 by done. f_equal.
  case_decide as Heq.
  - assert (stats expected = ∅ ∧ stats m = ∅) as [He Hm]
      by (destruct Hempty; split; congruence).
    rewrite compareStats_same_size by congruence.
    by apply for_each_assertEdgeEqual_empty.
  - apply compareStats_other_size. intros Hsz. apply Heq.
    destruct Hempty as [He|Hm].
    + rewrite He, map_size_empty in Hsz. symmetry in Hsz.
      apply map_size_empty_iff in Hsz. congruence.
    + rewrite Hm, map_size_empty in Hsz.
      apply map_size_empty_iff in Hsz. congruence.
Qed.

Lemma Forall2_diag_elem {A} (R : A → A → Prop) (l : list A) :
  Forall2 R l l ↔ ∀ x, x ∈ l → R x x.
Proof.
  induction l as [|y l IH].
  - split; [by intros _ x ?%elem_of_nil | constructor].
  - rewrite Forall2_cons, IH. split.
    + intros [Hy Hl] x [->|Hx]%elem_of_cons; auto.
    + intros Hall. split; [apply Hall; by left |].
      intros x Hx. apply Hall. by right.
Qed.

(** X11: a recorder compared with a recorder that holds the same records
    along the same edges passes, leaving the test as it was, exactly when
    every record has exactly one [End] and a success or a failure reason. *)
Theorem same_records_pass_iff_well_formed order m expected t :
  wg m = 0%Z →
  range_order (stats expected) order →
  stats m = stats expected →
  tb_failed t = false →
  AssertEqual order m expected t = Some (Return (), t) ↔
  ∀ edge calls cs,
    stats expected !! edge = Some calls → cs ∈ calls →
    ended cs = 1%Z ∧ ((0 < succeeded cs)%Z ∨ failedMsgs cs ≠ []).
Proof.
  intros Hwg Horder Heq Ht.
  assert (∀ cs, call_matches cs cs ↔
                ended cs = 1%Z ∧ ((0 < succeeded cs)%Z ∨ failedMsgs cs ≠ []))
    as Hself.
  { intros cs. rewrite <- not_misconfigured. unfold call_matches. tauto. }
  pose proof (compareStats_failed order m expected t Horder) as Hf.
  destruct (passes_iff_compareStats order m expected t Ht) as [Hyes _].
  rewrite AssertEqual_Some. split.
  - intros [_ Hc] edge calls cs Hcalls Hin. apply Hself.
    rewrite Hc in Hf. destruct (proj1 Hf Ht) as (_ & _ & Hall).
    specialize (Hall edge (mk_is_Some _ _ Hcalls)).
    rewrite Heq in Hall.
    rewrite (lookup_total_stats_Some _ _ _ Hcalls) in Hall.
    by apply (Forall2_diag_elem call_matches calls).
  - intros Hall. split; [done |].
    assert (tb_failed (compareStats order m expected t).2 = false) as Hnf.
    { apply Hf. split; [done |]. split; [by rewrite Heq |].
      intros e [calls Hcalls]. rewrite Heq.
      rewrite (lookup_total_stats_Some _ _ _ Hcalls).
      apply Forall2_diag_elem. intros cs Hin. apply Hself. eauto. }
    apply Hf in Hnf as (_ & Hsz & HP). apply Hyes. split; [done |].
    apply Forall_forall. intros e He. apply HP.
    by apply (range_order_elem _ _ _ Horder).
Qed.

(** ** When the edge key tells the triples apart *)

Lemma append_separator_inj (a : ascii) (s1 s2 r1 r2 : string) :
  has_char a s1 = false → has_char a s2 = false →
  s1 +:+ String a r1 = s2 +:+ String a r2 → s1 = s2 ∧ r1 = r2.
Proof.
  revert s2. induction s1 as [|x s1 IH]; intros [|y s2]; simpl.
  - by intros _ _ [= ->].
  - intros _ [Hy _]%orb_false_iff [= -> _].
    by apply bool_decide_eq_false in Hy.
  - intros [Hx _]%orb_false_iff _ [= <- _].
    by apply bool_decide_eq_false in Hx.
  - intros [_ H1]%orb_false_iff [_ H2]%orb_false_iff [= -> Heq].
    destruct (IH s2 H1 H2 Heq) as [-> ->]. done.
Qed.

(** X12: the edge key tells two triples apart when no caller holds the
    character "-" and no callee holds the character ":": then equal keys
    come from equal callers, callees and procedures. *)
Theorem tripleToKey_injective_on_plain_names
    (caller1 callee1 procedure1 caller2 callee2 procedure2 : string) :
  has_char "-" caller1 = false → has_char "-" caller2 = false →
  has_char ":" callee1 = false → has_char ":" callee2 = false →
  tripleToKey caller1 callee1 procedure1
  = tripleToKey caller2 callee2 procedure2 →
  caller1 = caller2 ∧ callee1 = callee2 ∧ procedure1 = procedure2.
Proof.
  intros Hc1 Hc2 He1 He2 Hkey. unfold tripleToKey in Hkey. simpl in Hkey.
  apply append_separator_inj in Hkey as [-> [= Hkey]]; [| done | done].
  apply append_separator_inj in Hkey as [-> [= ->]]; done.
Qed.

(** ** More on calls that run at the same time *)

(** X13: in every run of steps of calls on the recorder, [m.wg.Wait()] can
    return exactly when as many calls of [End] have run [m.wg.Done()] as
    calls of [Add] have run [m.wg.Add(1)]; it can, in particular, when no
    call of [Add] or [End] is half-way and every record has had [End] called
    on it once. *)
Theorem Wait_returns_when_all_calls_ended (tr : list (Step Peer)) w :
  steps tr newWorld = Some (Ok w) →
  (is_Some (step StepWait w) ↔
   count_steps is_AddWg tr = count_steps is_EndDone tr)
  ∧ (adding w = ∅ → ending w = ∅ → ended_handles tr ≡ₚ returned w →
     ∃ w', step StepWait w = Some (Ok w')).
Proof.
  intros Hrun.
  pose proof (world_inv_steps _ _ Hrun) as (I1 & I2 & I3 & _).
  simpl. unfold wg_Wait. split.
  - case_bool_decide as Hwg; split; try done; try lia.
  - intros Ha He Hp.
    assert (size (adding w) = 0) as Ha0
      by (rewrite Ha; apply gmultiset_size_empty).
    assert (size (ending w) = 0) as He0
      by (rewrite He; apply gmultiset_size_empty).
    apply Permutation_length in Hp.
    rewrite bool_decide_eq_true_2 by lia. eauto.
Qed.

(** X14: in every run of steps of calls on the recorder, the handles that
    [Add] has returned are pairwise different, each denotes a record of the
    recorder and every record has its handle; there are as many as calls of
    [Add] that have run both their steps; and [End] has only been called
    through such a handle. *)
Theorem Add_returns_distinct_records (tr : list (Step Peer)) w :
  steps tr newWorld = Some (Ok w) →
  NoDup (returned w)
  ∧ (∀ h, h ∈ returned w ↔ is_Some (deref h (rec w)))
  ∧ (Z.of_nat (length (returned w))
     = count_steps is_AddWg tr - Z.of_nat (size (adding w)))%Z
  ∧ (∀ h, h ∈ ended_handles tr → h ∈ returned w).
Proof.
  intros (I1 & I2 & I3 & I4 & I5 & I6 & _)%world_inv_steps.
  split_and!; try done. lia.
Qed.

End recorder_facts.

(** * The theorems at concrete recorders

    Peers are given by their host and port. *)




(** C3 at an expectation on which [End] was never called. *)
Lemma misconfigured_expectation_aborts_witness :
  wg (one_call (Peer := string) "a->b::p" (End_incr (Succeeded zeroCallStats)) 0)
  = 0%Z
  ∧ range_order
      (stats (one_call (Peer := string) "a->b::p" (Succeeded zeroCallStats) 1))
      ["a->b::p"]
  ∧ ended (Succeeded (zeroCallStats (Peer := string))) ≠ 1%Z
  ∧ AssertEqual ["a->b::p"]
      (one_call "a->b::p" (End_incr (Succeeded zeroCallStats)) 0)
      (one_call (Peer := string) "a->b::p" (Succeeded zeroCallStats) 1)
      {| tb_failed := false; tb_output := [] |}
    = Some (Goexit, {| tb_failed := true; tb_output := [ExpectedEndNotOne] |}).
Proof.
  assert (range_order
            (stats (one_call (Peer := string) "a->b::p"
                      (Succeeded zeroCallStats) 1))
            ["a->b::p"]) as Ho.
  { unfold range_order. simpl. by rewrite map_to_list_singleton. }
  assert (ended (Succeeded (zeroCallStats (Peer := string))) ≠ 1%Z) as He
    by (simpl; lia).
  split; [reflexivity |]. split; [exact Ho |]. split; [exact He |].
  destruct (misconfigured_expectation_aborts ["a->b::p"]
              (one_call "a->b::p" (End_incr (Succeeded zeroCallStats)) 0)
              (one_call (Peer := string) "a->b::p" (Succeeded zeroCallStats) 1)
              {| tb_failed := false; tb_output := [] |}
              "a->b::p" 0 (Succeeded zeroCallStats)
              (End_incr (Succeeded zeroCallStats))
              eq_refl Ho eq_refl eq_refl eq_refl eq_refl (or_introl He))
    as [_ (t' & pre & r & Ha & _)].
  rewrite Ha. vm_compute in Ha. injection Ha as <-. reflexivity.
Defined.

(** C5 at a new record: one [Succeeded] makes its success count one. *)
Lemma Succeeded_and_Failed_both_recorded_witness :
  (- 2 ^ 63 ≤ succeeded (zeroCallStats (Peer := string)) < int_max)%Z
  ∧ succeeded (Succeeded (zeroCallStats (Peer := string))) = 1%Z
  ∧ failedMsgs (Failed "x" (Succeeded (zeroCallStats (Peer := string))))
    = ["x"].
Proof.
  assert (- 2 ^ 63 ≤ succeeded (zeroCallStats (Peer := string)) < int_max)%Z
    as Hr by (unfold int_max; simpl; lia).
  split; [exact Hr |]. split.
  - exact (proj1 (proj1 Succeeded_and_Failed_both_recorded _ Hr)).
  - exact (proj1 (proj1 (proj2 Succeeded_and_Failed_both_recorded)
                    (Succeeded zeroCallStats) "x")).
Defined.

(** C4 at an expectation that never calls [SetPeer], against an actual call
    served by the peer "10.0.0.1". *)
Lemma peer_compared_iff_SetPeer_witness :
  run [OpAdd "gateway" "billing" "Charge";
       OpSucceeded ("gateway->billing::Charge", 0);
       OpEnd ("gateway->billing::Charge", 0)] (NewMockStats (Peer := string))
  = Ok (one_call "gateway->billing::Charge"
          (End_incr (Succeeded zeroCallStats)) 0)
  ∧ deref ("gateway->billing::Charge", 0)
      (one_call (Peer := string) "gateway->billing::Charge"
         (End_incr (Succeeded zeroCallStats)) 0)
    = Some (End_incr (Succeeded zeroCallStats))
  ∧ assertCallEqual (End_incr (Succeeded zeroCallStats))
      (SetPeer "10.0.0.1" (End_incr (Succeeded zeroCallStats)))
      {| tb_failed := false; tb_output := [] |}
    = (Return (), {| tb_failed := false; tb_output := [] |}).
Proof.
  assert (run [OpAdd "gateway" "billing" "Charge";
               OpSucceeded ("gateway->billing::Charge", 0);
               OpEnd ("gateway->billing::Charge", 0)]
            (NewMockStats (Peer := string))
          = Ok (one_call "gateway->billing::Charge"
                  (End_incr (Succeeded zeroCallStats)) 0)) as Hr
    by (vm_compute; reflexivity).
  assert (deref ("gateway->billing::Charge", 0)
            (one_call (Peer := string) "gateway->billing::Charge"
               (End_incr (Succeeded zeroCallStats)) 0)
          = Some (End_incr (Succeeded zeroCallStats))) as Hd
    by apply deref_one_call.
  split; [exact Hr |]. split; [exact Hd |].
  destruct (peer_compared_iff_SetPeer _ _ _ _
              (End_incr (Succeeded zeroCallStats))
              {| tb_failed := false; tb_output := [] |} Hr Hd)
    as (_ & _ & Hnever).
  assert (∀ p : string,
            OpSetPeer ("gateway->billing::Charge", 0) p
            ∉ [OpAdd "gateway" "billing" "Charge";
               OpSucceeded ("gateway->billing::Charge", 0);
               OpEnd ("gateway->billing::Charge", 0)]) as Hno.
  { intros p Hin. repeat (apply elem_of_cons in Hin as [Hin|Hin]; [done |]).
    by apply elem_of_nil in Hin. }
  destruct (Hnever Hno "10.0.0.1") as (_ & _ & _ & _ & Hm).
  apply passes_iff_assertCallEqual; [reflexivity |].
  apply Hm. split; [| done].
  apply not_misconfigured. split; [reflexivity | by left].
Defined.

(** C8 at two recorders with one matching call along the same edge. *)
Lemma calls_compared_by_position_witness :
  wg (one_call (Peer := string) "a->b::p" (End_incr (Succeeded zeroCallStats)) 0)
  = 0%Z
  ∧ range_order
      (stats (one_call (Peer := string) "a->b::p"
                (End_incr (Succeeded zeroCallStats)) 0))
      ["a->b::p"]
  ∧ is_Some (stats (one_call (Peer := string) "a->b::p"
                      (End_incr (Succeeded zeroCallStats)) 0) !! "a->b::p")
  ∧ AssertEqual ["a->b::p"]
      (one_call "a->b::p" (End_incr (Succeeded zeroCallStats)) 0)
      (one_call (Peer := string) "a->b::p"
         (End_incr (Succeeded zeroCallStats)) 0)
      {| tb_failed := false; tb_output := [] |}
    = Some (Return (), {| tb_failed := false; tb_output := [] |}).
Proof.
  assert (range_order
            (stats (one_call (Peer := string) "a->b::p"
                      (End_incr (Succeeded zeroCallStats)) 0))
            ["a->b::p"]) as Ho.
  { unfold range_order. simpl. by rewrite map_to_list_singleton. }
  assert (is_Some (stats (one_call (Peer := string) "a->b::p"
                            (End_incr (Succeeded zeroCallStats)) 0)
                   !! "a->b::p")) as Hs.
  { simpl. rewrite lookup_singleton_eq. eauto. }
  split; [reflexivity |]. split; [exact Ho |]. split; [exact Hs |].
  destruct (calls_compared_by_position ["a->b::p"]
              (one_call "a->b::p" (End_incr (Succeeded zeroCallStats)) 0)
              (one_call (Peer := string) "a->b::p"
                 (End_incr (Succeeded zeroCallStats)) 0)
              {| tb_failed := false; tb_output := [] |} "a->b::p"
              eq_refl Ho Hs)
    as (_ & _ & Hpass & _).
  destruct (Hpass eq_refl) as (fl & t' & Ha & _ & _).
  rewrite Ha. vm_compute in Ha. injection Ha as <- <-. reflexivity.
Defined.

(** C1 at an actual recorder with a call along "a->b::p" and an expected
    recorder with a call along "a->c::p". *)
Lemma edge_on_one_side_fails_witness :
  wg (one_call (Peer := string) "a->b::p" (End_incr (Succeeded zeroCallStats)) 0)
  = 0%Z
  ∧ range_order
      (stats (one_call (Peer := string) "a->c::p"
                (End_incr (Succeeded zeroCallStats)) 0))
      ["a->c::p"]
  ∧ reachable (one_call (Peer := string) "a->b::p"
                 (End_incr (Succeeded zeroCallStats)) 0)
  ∧ reachable (one_call (Peer := string) "a->c::p"
                 (End_incr (Succeeded zeroCallStats)) 0)
  ∧ is_Some (stats (one_call (Peer := string) "a->b::p"
                      (End_incr (Succeeded zeroCallStats)) 0) !! "a->b::p")
  ∧ stats (one_call (Peer := string) "a->c::p"
             (End_incr (Succeeded zeroCallStats)) 0) !! "a->b::p" = None
  ∧ ∃ fl t',
      AssertEqual ["a->c::p"]
        (one_call "a->b::p" (End_incr (Succeeded zeroCallStats)) 0)
        (one_call (Peer := string) "a->c::p"
           (End_incr (Succeeded zeroCallStats)) 0)
        {| tb_failed := false; tb_output := [] |}
      = Some (fl, t')
      ∧ tb_failed t' = true.
Proof.
  assert (range_order
            (stats (one_call (Peer := string) "a->c::p"
                      (End_incr (Succeeded zeroCallStats)) 0))
            ["a->c::p"]) as Ho.
  { unfold range_order. simpl. by rewrite map_to_list_singleton. }
  assert (reachable (one_call (Peer := string) "a->b::p"
                       (End_incr (Succeeded zeroCallStats)) 0)) as Hm.
  { exists [OpAdd "a" "b" "p"; OpSucceeded ("a->b::p", 0);
            OpEnd ("a->b::p", 0)].
    vm_compute. reflexivity. }
  assert (reachable (one_call (Peer := string) "a->c::p"
                       (End_incr (Succeeded zeroCallStats)) 0)) as He.
  { exists [OpAdd "a" "c" "p"; OpSucceeded ("a->c::p", 0);
            OpEnd ("a->c::p", 0)].
    vm_compute. reflexivity. }
  assert (is_Some (stats (one_call (Peer := string) "a->b::p"
                            (End_incr (Succeeded zeroCallStats)) 0)
                   !! "a->b::p")) as Hs.
  { simpl. rewrite lookup_singleton_eq. eauto. }
  assert (stats (one_call (Peer := string) "a->c::p"
                   (End_incr (Succeeded zeroCallStats)) 0) !! "a->b::p"
          = None) as Hn.
  { simpl. by rewrite lookup_singleton_ne. }
  split; [reflexivity |]. split; [exact Ho |]. split; [exact Hm |].
  split; [exact He |]. split; [exact Hs |]. split; [exact Hn |].
  destruct (edge_on_one_side_fails ["a->c::p"]
              (one_call "a->b::p" (End_incr (Succeeded zeroCallStats)) 0)
              (one_call (Peer := string) "a->c::p"
                 (End_incr (Succeeded zeroCallStats)) 0)
              {| tb_failed := false; tb_output := [] |} "a->b::p"
              eq_refl Ho Hm He (or_introl (conj Hs Hn)))
    as (fl & t' & new & Ha & Hf & _).
  exists fl, t'. split; [exact Ha | exact Hf].
Defined.

(** C2 at the run of one call that is added and ended before the test
    compares. *)
Lemma comparison_waits_for_counter_witness :
  ∃ w : World string,
    steps ([StepAddWg "a" "b" "p"; StepAddStore "a" "b" "p";
            StepEndIncr ("a->b::p", 0); StepEndDone ("a->b::p", 0);
            StepWait]
           ++ [StepCompare ["a->b::p"] NewMockStats
                 {| tb_failed := false; tb_output := [] |}])
      newWorld = Some (Ok w)
    ∧ wg (rec w) = 0%Z.
Proof.
  assert (∃ w : World string,
            steps ([StepAddWg "a" "b" "p"; StepAddStore "a" "b" "p";
                    StepEndIncr ("a->b::p", 0); StepEndDone ("a->b::p", 0);
                    StepWait]
                   ++ [StepCompare ["a->b::p"] NewMockStats
                         {| tb_failed := false; tb_output := [] |}])
              newWorld = Some (Ok w)) as [w Hw]
    by (eexists; vm_compute; reflexivity).
  exists w. split; [exact Hw |].
  destruct (comparison_waits_for_counter _ _ _ _ _ Hw) as (Hwg & _).
  rewrite Hwg. vm_compute. reflexivity.
Defined.

(** C1 as stated fails: the actual recorder has a call along "a->b::p" only
    and the expected one a call along "a->c::p" only; [AssertEqual] fails,
    and its one report is about the number of calls along "a->c::p", not
    about unexpected edges. *)
Lemma edge_sets_differ_without_edge_report :
  ∃ actual expected : MockStats string,
    run [OpAdd "a" "b" "p"; OpSucceeded ("a->b::p", 0); OpEnd ("a->b::p", 0)]
      NewMockStats = Ok actual
    ∧ run [OpAdd "a" "c" "p"; OpSucceeded ("a->c::p", 0); OpEnd ("a->c::p", 0)]
        NewMockStats = Ok expected
    ∧ is_Some (stats actual !! "a->b::p")
    ∧ stats expected !! "a->b::p" = None
    ∧ range_order (stats expected) ["a->c::p"]
    ∧ AssertEqual ["a->c::p"] actual expected
        {| tb_failed := false; tb_output := [] |}
      = Some (Return (),
              {| tb_failed := true;
                 tb_output := [UnexpectedNumberOfCalls "a->c::p"] |})
    ∧ message (UnexpectedNumberOfCalls (Peer := string) "a->c::p")
      = "Unexpected number of calls along a->c::p edge."
    ∧ UnexpectedEdges ∉ [UnexpectedNumberOfCalls (Peer := string) "a->c::p"].
Proof.
  exists (one_call "a->b::p" (End_incr (Succeeded zeroCallStats)) 0),
         (one_call "a->c::p" (End_incr (Succeeded zeroCallStats)) 0).
  split_and!.
  - vm_compute. reflexivity.
  - vm_compute. reflexivity.
  - simpl. rewrite lookup_singleton_eq. eauto.
  - simpl. by rewrite lookup_singleton_ne.
  - unfold range_order. simpl. by rewrite map_to_list_singleton.
  - vm_compute. reflexivity.
  - reflexivity.
  - intros Hin. apply list_elem_of_singleton in Hin. discriminate.
Qed.

(** C2 as stated fails: two calls are added along "a->b::p", [End] is called
    twice on the first record and never on the second; the counter is zero,
    [m.wg.Wait()] returns and the comparison is made, on a second record
    whose [ended] is still zero. *)
Lemma comparison_with_a_record_never_ended :
  ∃ (w : World string) cs0 cs1,
    steps ([StepAddWg "a" "b" "p"; StepAddStore "a" "b" "p";
            StepAddWg "a" "b" "p"; StepAddStore "a" "b" "p";
            StepEndIncr ("a->b::p", 0); StepEndDone ("a->b::p", 0);
            StepEndIncr ("a->b::p", 0); StepEndDone ("a->b::p", 0);
            StepWait]
           ++ [StepCompare ["a->b::p"] NewMockStats
                 {| tb_failed := false; tb_output := [] |}])
      newWorld = Some (Ok w)
    ∧ returned w = [("a->b::p", 0); ("a->b::p", 1)]
    ∧ deref ("a->b::p", 0) (rec w) = Some cs0 ∧ ended cs0 = 2%Z
    ∧ deref ("a->b::p", 1) (rec w) = Some cs1 ∧ ended cs1 = 0%Z
    ∧ (("a->b::p", 1)
       ∉ ended_handles
           [StepAddWg (Peer := string) "a" "b" "p"; StepAddStore "a" "b" "p";
            StepAddWg "a" "b" "p"; StepAddStore "a" "b" "p";
            StepEndIncr ("a->b::p", 0); StepEndDone ("a->b::p", 0);
            StepEndIncr ("a->b::p", 0); StepEndDone ("a->b::p", 0);
            StepWait])
    ∧ length (verdicts w) = 1.
Proof.
  eexists _, _, _. split_and!.
  - vm_compute. reflexivity.
  - reflexivity.
  - reflexivity.
  - reflexivity.
  - reflexivity.
  - reflexivity.
  - simpl. intros Hin.
    repeat (apply elem_of_cons in Hin as [Hin|Hin]; [discriminate |]).
    by apply elem_of_nil in Hin.
  - reflexivity.
Qed.

(** * The further properties at concrete recorders *)

(** X1 at a call that succeeds, fails twice and is served by two peers. *)
Lemma record_holds_history_witness :
  ∃ (m : MockStats string) cs,
    run [OpAdd "a" "b" "p"; OpSucceeded ("a->b::p", 0);
         OpFailed ("a->b::p", 0) "x"; OpSetPeer ("a->b::p", 0) "10.0.0.1";
         OpFailed ("a->b::p", 0) "y"; OpSetPeer ("a->b::p", 0) "10.0.0.2";
         OpEnd ("a->b::p", 0)] NewMockStats = Ok m
    ∧ deref ("a->b::p", 0) m = Some cs
    ∧ failedMsgs cs = ["x"; "y"]
    ∧ peer cs = Some "10.0.0.2".
Proof.
  assert (∃ (m : MockStats string) cs,
            run [OpAdd "a" "b" "p"; OpSucceeded ("a->b::p", 0);
                 OpFailed ("a->b::p", 0) "x";
                 OpSetPeer ("a->b::p", 0) "10.0.0.1";
                 OpFailed ("a->b::p", 0) "y";
                 OpSetPeer ("a->b::p", 0) "10.0.0.2";
                 OpEnd ("a->b::p", 0)] NewMockStats = Ok m
            ∧ deref ("a->b::p", 0) m = Some cs) as (m & cs & Hr & Hd)
    by (eexists _, _; split; reflexivity).
  exists m, cs. split; [exact Hr |]. split; [exact Hd |].
  destruct (record_holds_history _ _ _ _ Hr Hd) as (Hf & _ & _ & Hp & _).
  split; [rewrite Hf | rewrite Hp]; reflexivity.
Defined.

(** X2 at a script with two calls along "a->b::p" and one along "a->c::p". *)
Lemma edge_holds_its_calls_witness :
  ∃ m : MockStats string,
    run [OpAdd "a" "b" "p"; OpAdd "a" "c" "p";
         OpBegin {| Caller := "a"; Service := "b"; Method := "p" |}]
      NewMockStats = Ok m
    ∧ Z.of_nat (length (stats m !!! "a->b::p")) = 2%Z.
Proof.
  assert (∃ m : MockStats string,
            run [OpAdd "a" "b" "p"; OpAdd "a" "c" "p";
                 OpBegin {| Caller := "a"; Service := "b"; Method := "p" |}]
              NewMockStats = Ok m) as [m Hr]
    by (eexists; reflexivity).
  exists m. split; [exact Hr |].
  rewrite (proj1 (edge_holds_its_calls _ _ "a->b::p" Hr)). reflexivity.
Defined.

(** X3 at a call of [Succeeded] on the only record of a recorder. *)
Lemma calls_are_local_witness :
  exec (OpSucceeded ("a->b::p", 0))
    (one_call (Peer := string) "a->b::p" zeroCallStats 1)
  = Ok (one_call "a->b::p" (Succeeded zeroCallStats) 1)
  ∧ dom (stats (one_call (Peer := string) "a->b::p"
                  (Succeeded zeroCallStats) 1))
    = dom (stats (one_call (Peer := string) "a->b::p" zeroCallStats 1)).
Proof.
  assert (exec (OpSucceeded ("a->b::p", 0))
            (one_call (Peer := string) "a->b::p" zeroCallStats 1)
          = Ok (one_call "a->b::p" (Succeeded zeroCallStats) 1)) as Ho
    by apply call_one_call.
  split; [exact Ho |].
  destruct (calls_are_local _ _ _ Ho) as (_ & _ & _ & Hshape).
  apply Hshape. discriminate.
Defined.

(** X4 at the declaration [Add(...).Succeeded().SetPeer("10.0.0.5:4040")]. *)
Lemma fluent_chain_declares_witness :
  deref ("gateway->billing::Charge", 0)
    (one_call (Peer := string) "gateway->billing::Charge" zeroCallStats 1)
  = Some zeroCallStats
  ∧ ∃ m' : MockStats string,
      fluent_chain [DeclSucceeded; DeclSetPeer "10.0.0.5:4040"]
        ("gateway->billing::Charge", 0)
        (one_call "gateway->billing::Charge" zeroCallStats 1)
      = Ok (m', ("gateway->billing::Charge", 0))
      ∧ deref ("gateway->billing::Charge", 0) m'
        = Some (SetPeer "10.0.0.5:4040" (Succeeded zeroCallStats)).
Proof.
  assert (deref ("gateway->billing::Charge", 0)
            (one_call (Peer := string) "gateway->billing::Charge"
               zeroCallStats 1)
          = Some zeroCallStats) as Hd by apply deref_one_call.
  split; [exact Hd |].
  destruct (fluent_chain_declares
              [DeclSucceeded; DeclSetPeer "10.0.0.5:4040"] _ _ _ Hd)
    as (m' & Hc & Hd' & _).
  exists m'. split; [exact Hc | exact Hd'].
Defined.

(** X5 at two recorders with one call each, along different edges. *)
Lemma AssertEqual_only_adds_reports_witness :
  AssertEqual ["a->c::p"]
    (one_call "a->b::p" (End_incr (Succeeded zeroCallStats)) 0)
    (one_call (Peer := string) "a->c::p"
       (End_incr (Succeeded zeroCallStats)) 0)
    {| tb_failed := false; tb_output := [] |}
  = Some (Return (),
          {| tb_failed := true;
             tb_output := [UnexpectedNumberOfCalls "a->c::p"] |})
  ∧ ∃ new : list (Report string),
      [UnexpectedNumberOfCalls "a->c::p"] = [] ++ new.
Proof.
  assert (AssertEqual ["a->c::p"]
            (one_call "a->b::p" (End_incr (Succeeded zeroCallStats)) 0)
            (one_call (Peer := string) "a->c::p"
               (End_incr (Succeeded zeroCallStats)) 0)
            {| tb_failed := false; tb_output := [] |}
          = Some (Return (),
                  {| tb_failed := true;
                     tb_output := [UnexpectedNumberOfCalls "a->c::p"] |}))
    as Ha by (vm_compute; reflexivity).
  split; [exact Ha |].
  destruct (AssertEqual_only_adds_reports _ _ _ _ _ _ Ha) as (new & Ho & _).
  exists new. exact Ho.
Defined.

(** X6 at an expected recorder with two edges, visited in both orders. *)
Lemma AssertEqual_verdict_ignores_range_order_witness :
  range_order
    (stats {| wg := 0;
              stats := <["a->b::p" := [End_incr (Succeeded zeroCallStats)]]>
                         (<["a->c::p" := [zeroCallStats (Peer := string)]]> ∅)
           |})
    ["a->b::p"; "a->c::p"]
  ∧ range_order
      (stats {| wg := 0;
                stats := <["a->b::p" := [End_incr (Succeeded zeroCallStats)]]>
                           (<["a->c::p" := [zeroCallStats (Peer := string)]]> ∅)
             |})
      ["a->c::p"; "a->b::p"]
  ∧ tb_failed
      (compareStats ["a->b::p"; "a->c::p"]
         {| wg := 0;
            stats := <["a->b::p" := [End_incr (Succeeded zeroCallStats)]]>
                       (<["a->c::p" := [zeroCallStats (Peer := string)]]> ∅) |}
         {| wg := 0;
            stats := <["a->b::p" := [End_incr (Succeeded zeroCallStats)]]>
                       (<["a->c::p" := [zeroCallStats (Peer := string)]]> ∅) |}
         {| tb_failed := false; tb_output := [] |}).2
    = tb_failed
        (compareStats ["a->c::p"; "a->b::p"]
           {| wg := 0;
              stats := <["a->b::p" := [End_incr (Succeeded zeroCallStats)]]>
                         (<["a->c::p" := [zeroCallStats (Peer := string)]]> ∅) |}
           {| wg := 0;
              stats := <["a->b::p" := [End_incr (Succeeded zeroCallStats)]]>
                         (<["a->c::p" := [zeroCallStats (Peer := string)]]> ∅) |}
           {| tb_failed := false; tb_output := [] |}).2.
Proof.
  assert (range_order
            (stats {| wg := 0;
                      stats := <["a->b::p" :=
                                   [End_incr (Succeeded zeroCallStats)]]>
                                 (<["a->c::p" :=
                                      [zeroCallStats (Peer := string)]]> ∅) |})
            ["a->b::p"; "a->c::p"]) as Ho1.
  { unfold range_order. vm_compute.
    first [reflexivity | apply perm_swap]. }
  assert (range_order
            (stats {| wg := 0;
                      stats := <["a->b::p" :=
                                   [End_incr (Succeeded zeroCallStats)]]>
                                 (<["a->c::p" :=
                                      [zeroCallStats (Peer := string)]]> ∅) |})
            ["a->c::p"; "a->b::p"]) as Ho2.
  { unfold range_order. vm_compute.
    first [reflexivity | apply perm_swap]. }
  split; [exact Ho1 |]. split; [exact Ho2 |].
  exact (proj1 (proj2 (AssertEqual_verdict_ignores_range_order _ _ _ _
                         {| tb_failed := false; tb_output := [] |} Ho1 Ho2))).
Defined.

(** X7 at an expectation on which [End] was never called. *)
Lemma AssertEqual_stops_iff_misconfigured_witness :
  range_order
    (stats (one_call (Peer := string) "a->b::p" (Succeeded zeroCallStats) 1))
    ["a->b::p"]
  ∧ AssertEqual ["a->b::p"]
      (one_call "a->b::p" (End_incr (Succeeded zeroCallStats)) 0)
      (one_call (Peer := string) "a->b::p" (Succeeded zeroCallStats) 1)
      {| tb_failed := false; tb_output := [] |}
    = Some (Goexit, {| tb_failed := true; tb_output := [ExpectedEndNotOne] |})
  ∧ size (stats (one_call (Peer := string) "a->b::p"
                   (Succeeded zeroCallStats) 1))
    = size (stats (one_call (Peer := string) "a->b::p"
                     (End_incr (Succeeded zeroCallStats)) 0)).
Proof.
  assert (range_order
            (stats (one_call (Peer := string) "a->b::p"
                      (Succeeded zeroCallStats) 1))
            ["a->b::p"]) as Ho.
  { unfold range_order. simpl. by rewrite map_to_list_singleton. }
  assert (AssertEqual ["a->b::p"]
            (one_call "a->b::p" (End_incr (Succeeded zeroCallStats)) 0)
            (one_call (Peer := string) "a->b::p" (Succeeded zeroCallStats) 1)
            {| tb_failed := false; tb_output := [] |}
          = Some (Goexit,
                  {| tb_failed := true; tb_output := [ExpectedEndNotOne] |}))
    as Ha by (vm_compute; reflexivity).
  split; [exact Ho |]. split; [exact Ha |].
  exact (proj1 (proj1 (AssertEqual_stops_iff_misconfigured _ _ _ _ _ _ Ho Ha)
                  eq_refl)).
Defined.

(** X8 at an actual call that succeeded and then failed, against an
    expectation that only succeeded. *)
Lemma AssertEqual_reports_every_difference_witness :
  range_order
    (stats (one_call (Peer := string) "a->b::p"
              (End_incr (Succeeded zeroCallStats)) 0))
    ["a->b::p"]
  ∧ AssertEqual ["a->b::p"]
      (one_call "a->b::p" (End_incr (Failed "x" (Succeeded zeroCallStats))) 0)
      (one_call (Peer := string) "a->b::p"
         (End_incr (Succeeded zeroCallStats)) 0)
      {| tb_failed := false; tb_output := [] |}
    = Some (Return (),
            {| tb_failed := true;
               tb_output :=
                 [UnexpectedReasons;
                  RelayedStats (End_incr (Succeeded zeroCallStats))
                    (End_incr (Failed "x" (Succeeded zeroCallStats)))] |})
  ∧ ∃ new : list (Report string),
      [UnexpectedReasons;
       RelayedStats (End_incr (Succeeded zeroCallStats))
         (End_incr (Failed "x" (Succeeded zeroCallStats)))]
      = [] ++ new
      ∧ RelayedStats (End_incr (Succeeded zeroCallStats))
          (End_incr (Failed "x" (Succeeded zeroCallStats))) ∈ new.
Proof.
  assert (range_order
            (stats (one_call (Peer := string) "a->b::p"
                      (End_incr (Succeeded zeroCallStats)) 0))
            ["a->b::p"]) as Ho.
  { unfold range_order. simpl. by rewrite map_to_list_singleton. }
  assert (AssertEqual ["a->b::p"]
            (one_call "a->b::p"
               (End_incr (Failed "x" (Succeeded zeroCallStats))) 0)
            (one_call (Peer := string) "a->b::p"
               (End_incr (Succeeded zeroCallStats)) 0)
            {| tb_failed := false; tb_output := [] |}
          = Some (Return (),
                  {| tb_failed := true;
                     tb_output :=
                       [UnexpectedReasons;
                        RelayedStats (End_incr (Succeeded zeroCallStats))
                          (End_incr (Failed "x" (Succeeded zeroCallStats)))]
                  |})) as Ha by (vm_compute; reflexivity).
  split; [exact Ho |]. split; [exact Ha |].
  assert (size (stats (one_call (Peer := string) "a->b::p"
                         (End_incr (Succeeded zeroCallStats)) 0))
          = size (stats (one_call (Peer := string) "a->b::p"
                           (End_incr (Failed "x" (Succeeded zeroCallStats)))
                           0))) as Hsz by reflexivity.
  destruct (AssertEqual_reports_every_difference _ _ _ _ _ Ho Hsz Ha)
    as [_ Hpairs].
  apply (Hpairs "a->b::p" 0).
  - split_and!; try reflexivity. simpl. rewrite lookup_singleton_eq. eauto.
  - intros (_ & _ & Hm & _). discriminate Hm.
Defined.

(** X9 at a pair that matches, compared after the test has failed. *)
Lemma assertCallEqual_dumps_when_failed_witness :
  ended (End_incr (Succeeded (zeroCallStats (Peer := string)))) = 1%Z
  ∧ (0 < succeeded (End_incr (Succeeded (zeroCallStats (Peer := string)))))%Z
  ∧ ∃ new,
      assertCallEqual (End_incr (Succeeded (zeroCallStats (Peer := string))))
        (End_incr (Succeeded zeroCallStats))
        {| tb_failed := true; tb_output := [] |}
      = (Return (), {| tb_failed := true || bool_decide (new ≠ []);
                       tb_output := [] ++ new |})
      ∧ new = [RelayedStats (End_incr (Succeeded zeroCallStats))
                 (End_incr (Succeeded zeroCallStats))].
Proof.
  assert (ended (End_incr (Succeeded (zeroCallStats (Peer := string))))
          = 1%Z) as He by reflexivity.
  assert (0 < succeeded (End_incr (Succeeded (zeroCallStats (Peer := string)))))%Z
    as Hs by reflexivity.
  split; [exact He |]. split; [exact Hs |].
  destruct (assertCallEqual_dumps_when_failed
              (End_incr (Succeeded (zeroCallStats (Peer := string))))
              (End_incr (Succeeded zeroCallStats))
              {| tb_failed := true; tb_output := [] |} He (or_introl Hs))
    as (new & Ha & _ & _ & Hdump & _).
  exists new. split; [exact Ha |]. apply Hdump; [| reflexivity].
  split; [| done]. apply not_misconfigured. split; [reflexivity | by left].
Defined.

(** X10 at two new recorders. *)
Lemma AssertEqual_with_an_empty_recorder_witness :
  wg (NewMockStats (Peer := string)) = 0%Z
  ∧ stats (NewMockStats (Peer := string)) = ∅
  ∧ AssertEqual [] (NewMockStats (Peer := string)) NewMockStats
      {| tb_failed := false; tb_output := [] |}
    = Some (Return (), {| tb_failed := false; tb_output := [] |}).
Proof.
  split; [reflexivity |]. split; [reflexivity |].
  rewrite (AssertEqual_with_an_empty_recorder [] (NewMockStats (Peer := string))
             NewMockStats {| tb_failed := false; tb_output := [] |}
             eq_refl (or_introl eq_refl)).
  by rewrite decide_True.
Defined.

(** X11 at one call that succeeded and ended, recorded on both sides. *)
Lemma same_records_pass_iff_well_formed_witness :
  range_order
    (stats (one_call (Peer := string) "a->b::p"
              (End_incr (Succeeded zeroCallStats)) 0))
    ["a->b::p"]
  ∧ AssertEqual ["a->b::p"]
      (one_call "a->b::p" (End_incr (Succeeded zeroCallStats)) 0)
      (one_call (Peer := string) "a->b::p"
         (End_incr (Succeeded zeroCallStats)) 0)
      {| tb_failed := false; tb_output := [] |}
    = Some (Return (), {| tb_failed := false; tb_output := [] |}).
Proof.
  assert (range_order
            (stats (one_call (Peer := string) "a->b::p"
                      (End_incr (Succeeded zeroCallStats)) 0))
            ["a->b::p"]) as Ho.
  { unfold range_order. simpl. by rewrite map_to_list_singleton. }
  split; [exact Ho |].
  apply (same_records_pass_iff_well_formed ["a->b::p"]
           (one_call "a->b::p" (End_incr (Succeeded zeroCallStats)) 0)
           (one_call (Peer := string) "a->b::p"
              (End_incr (Succeeded zeroCallStats)) 0)
           {| tb_failed := false; tb_output := [] |}
           eq_refl Ho eq_refl eq_refl).
  intros edge calls cs Hc Hin. simpl in Hc.
  apply lookup_singleton_Some in Hc as [_ <-].
  apply list_elem_of_singleton in Hin as ->.
  split; [reflexivity | left; reflexivity].
Defined.

(** X12 at two triples that differ in the callee only. *)
Lemma tripleToKey_injective_on_plain_names_witness :
  has_char "-" "gateway" = false
  ∧ has_char ":" "billing" = false
  ∧ has_char ":" "ledger" = false
  ∧ tripleToKey "gateway" "billing" "Charge"
    ≠ tripleToKey "gateway" "ledger" "Charge".
Proof.
  split; [reflexivity |]. split; [reflexivity |]. split; [reflexivity |].
  intros Hkey.
  destruct (tripleToKey_injective_on_plain_names
              "gateway" "billing" "Charge" "gateway" "ledger" "Charge"
              eq_refl eq_refl eq_refl eq_refl Hkey) as (_ & He & _).
  discriminate He.
Defined.

(** X13 at the run of one call that is added and ended. *)
Lemma Wait_returns_when_all_calls_ended_witness :
  ∃ w : World string,
    steps [StepAddWg "a" "b" "p"; StepAddStore "a" "b" "p";
           StepEndIncr ("a->b::p", 0); StepEndDone ("a->b::p", 0)]
      newWorld = Some (Ok w)
    ∧ is_Some (step StepWait w).
Proof.
  assert (∃ w : World string,
            steps [StepAddWg "a" "b" "p"; StepAddStore "a" "b" "p";
                   StepEndIncr ("a->b::p", 0); StepEndDone ("a->b::p", 0)]
              newWorld = Some (Ok w)) as [w Hw]
    by (eexists; vm_compute; reflexivity).
  exists w. split; [exact Hw |].
  apply (proj1 (Wait_returns_when_all_calls_ended _ _ Hw)).
  vm_compute. reflexivity.
Defined.

(** X14 at a run of three calls of [Add], one of them still between its two
    steps. *)
Lemma Add_returns_distinct_records_witness :
  ∃ w : World string,
    steps [StepAddWg "a" "b" "p"; StepAddWg "a" "b" "p";
           StepAddStore "a" "b" "p"; StepAddWg "a" "c" "p";
           StepAddStore "a" "b" "p"]
      newWorld = Some (Ok w)
    ∧ NoDup (returned w).
Proof.
  assert (∃ w : World string,
            steps [StepAddWg "a" "b" "p"; StepAddWg "a" "b" "p";
                   StepAddStore "a" "b" "p"; StepAddWg "a" "c" "p";
                   StepAddStore "a" "b" "p"]
              newWorld = Some (Ok w)) as [w Hw]
    by (eexists; vm_compute; reflexivity).
  exists w. split; [exact Hw |].
  exact (proj1 (Add_returns_distinct_records _ _ Hw)).
Defined.
